(** * hazelcast/invocation.py: futures, invocations and the invocation service

    A shallow embedding of [src/hazelcast/invocation.py].  Python objects that
    are mutated and shared (Invocation objects held by both registry tables,
    timers held by the reactor) live in explicit stores inside a [State]
    record; a [Future] together with the continuation futures captured by its
    callbacks is a tree. *)

From stdpp Require Import gmap strings list fin_maps.
From Stdlib Require Import ZArith Lia.

Set Warnings "-register-all".
Open Scope Z_scope.

(** ** Python values used by the module *)

(** Modelled from the spec: the [ClientMessage] class is defined in
    hazelcast.protocol.client_message, outside this module.  A message is a
    mutable unit with a settable correlation id, a settable partition id, a
    flags bit for "this is an event/listener message", a message-type
    discriminator used to detect an encoded remote exception, and a marker
    for whether the originating request is retryable; these are what
    invocation.py reaches through [set_correlation_id]/[get_correlation_id],
    [set_partition_id], [has_flags(LISTENER_FLAG)], [get_message_type()] and
    [is_retryable()]. *)
Record ClientMessage := mkMessage {
  correlation_id : Z;
  msg_partition_id : Z;
  listener_flag : bool;      (* has_flags(LISTENER_FLAG) *)
  message_type : Z;          (* get_message_type() *)
  retryable : bool;          (* is_retryable() *)
  payload : string
}.

Definition set_correlation_id (m : ClientMessage) (c : Z) : ClientMessage :=
  mkMessage c (msg_partition_id m) (listener_flag m) (message_type m)
            (retryable m) (payload m).

Definition set_partition_id (m : ClientMessage) (p : Z) : ClientMessage :=
  mkMessage (correlation_id m) p (listener_flag m) (message_type m)
            (retryable m) (payload m).

(** Exception instances.  Instances of exception classes are truthy in
    Python, so [if self._exception:] is a test against [None]. *)
Inductive exn :=
| IOError (msg : string)
| HazelcastInstanceNotActiveError (msg : string)
| TimeoutError (msg : string)
| OtherError (cls : string) (msg : string).

Inductive value :=
| PyNone
| PyInt (z : Z)
| PyStr (s : string)
| PyMessage (m : ClientMessage).

(** What a Python call does: return a value or raise. *)
Inductive outcome :=
| Returns (v : value)
| Raises (e : exn).

(** ** Future *)

(** What a callable that receives the future can read from it. *)
Record FutureView := mkView {
  view_result : value;
  view_exception : option exn;
  view_done : bool
}.

(** The callables stored in [Future._callbacks]: the closure [callback]
    built by [continue_with], which captures [continuation_func] and the new
    [future]; or any other callable handed to [add_done_callback], known by a
    name and by what it does when called with the future. *)
Inductive callable (F : Type) : Type :=
| continuation (continuation_func : FutureView -> outcome) (future : F)
| client_callback (name : string) (body : FutureView -> outcome).
Arguments continuation {F} _ _.
Arguments client_callback {F} _ _.

Inductive Future : Type := mkFuture {
  _result : value;
  _exception : option exn;
  _event : bool;                          (* threading.Event: isSet() *)
  _callbacks : list (callable Future)
}.

(** Log records written by the module. *)
Inductive LogRecord :=
| LogCallbackException (e : exn)
| LogSending (m : ClientMessage)
| LogReceived (m : ClientMessage)
| LogUnknownEvent (m : ClientMessage)
| LogUnknownMessage (m : ClientMessage)
| LogEventError (m : ClientMessage)
| LogGotException (request : ClientMessage) (error : exn)
| LogRescheduling (request : ClientMessage) (seconds : Z).

(** Effects visible outside the objects, in the order they happen. *)
Inductive Effect :=
| Log (r : LogRecord)
| CallbackCalled (name : string) (arg : FutureView)
| HandlerCalled (invocation : nat) (m : ClientMessage).

Definition trace := list Effect.

Definition new_Future : Future := mkFuture PyNone None false [].

Definition view_of (self : Future) : FutureView :=
  mkView (_result self) (_exception self) (_event self).

(** The loop [for callback in self._callbacks: ...], threading the trace. *)
Definition for_each_callback {F : Type}
    (invoke : callable F -> callable F * trace)
  : list (callable F) -> list (callable F) * trace :=
  fix go (cbs : list (callable F)) :=
    match cbs with
    | [] => ([], [])
    | cb :: rest =>
        let '(cb', t1) := invoke cb in
        let '(rest', t2) := go rest in
        (cb' :: rest', t1 ++ t2)
    end.

(** [_invoke_cb]: [try: callback(self) except: logging.exception(...)],
    with the two resolvers of the captured future passed in. *)
Definition invoke_cb_with
    (set_result : Future -> value -> Future * trace)
    (set_exception : Future -> exn -> Future * trace)
    (self : FutureView) (callback : callable Future)
  : callable Future * trace :=
  match callback with
  | continuation continuation_func future =>
      (* try: future.set_result(continuation_func(f))
         except: future.set_exception(sys.exc_info()[1]) *)
      let '(future', t) :=
        match continuation_func self with
        | Returns v => set_result future v
        | Raises e => set_exception future e
        end in
      (continuation continuation_func future', t)
  | client_callback name body =>
      (callback,
       CallbackCalled name self ::
       match body self with
       | Returns _ => []
       | Raises e => [Log (LogCallbackException e)]
       end)
  end.

Fixpoint set_result (self : Future) (result : value) {struct self}
  : Future * trace :=
  match self with
  | mkFuture _ exc _ cbs =>
      let v := mkView result exc true in
      let '(cbs', t) :=
        for_each_callback
          (fun cb =>
             match cb with
             | continuation f future =>
                 let '(future', t) :=
                   match f v with
                   | Returns r => set_result future r
                   | Raises e => set_exception future e
                   end in
                 (continuation f future', t)
             | client_callback name body =>
                 (cb,
                  CallbackCalled name v ::
                  match body v with
                  | Returns _ => []
                  | Raises e => [Log (LogCallbackException e)]
                  end)
             end) cbs in
      (mkFuture result exc true cbs', t)
  end
with set_exception (self : Future) (exception : exn) {struct self}
  : Future * trace :=
  match self with
  | mkFuture res _ _ cbs =>
      let v := mkView res (Some exception) true in
      let '(cbs', t) :=
        for_each_callback
          (fun cb =>
             match cb with
             | continuation f future =>
                 let '(future', t) :=
                   match f v with
                   | Returns r => set_result future r
                   | Raises e => set_exception future e
                   end in
                 (continuation f future', t)
             | client_callback name body =>
                 (cb,
                  CallbackCalled name v ::
                  match body v with
                  | Returns _ => []
                  | Raises e => [Log (LogCallbackException e)]
                  end)
             end) cbs in
      (mkFuture res (Some exception) true cbs', t)
  end.

Definition _invoke_cb : FutureView -> callable Future -> callable Future * trace :=
  invoke_cb_with set_result set_exception.

Definition _invoke_callbacks (self : FutureView) (cbs : list (callable Future))
  : list (callable Future) * trace :=
  for_each_callback (_invoke_cb self) cbs.

(** [Future.result()]: [self._event.wait()] never returns while the event is
    unset ([None]); afterwards a stored exception is raised, otherwise the
    stored result is returned. *)
Definition result (self : Future) : option outcome :=
  if _event self then
    match _exception self with
    | Some e => Some (Raises e)
    | None => Some (Returns (_result self))
    end
  else None.

Definition done (self : Future) : bool := _event self.

Definition running (self : Future) : bool := negb (done self).

Definition exception (self : Future) : option (option exn) :=
  if _event self then Some (_exception self) else None.

(** [add_done_callback]: append, then run the appended callback at once when
    the future is already done. *)
Definition add_done_callback (self : Future) (callback : callable Future)
  : Future * trace :=
  if done self then
    let '(callback', t) := _invoke_cb (view_of self) callback in
    (mkFuture (_result self) (_exception self) (_event self)
              (_callbacks self ++ [callback']), t)
  else
    (mkFuture (_result self) (_exception self) (_event self)
              (_callbacks self ++ [callback]), []).

(** [continue_with]: the new future is captured by the closure appended to
    [self._callbacks]; the position of that closure is returned as the handle
    on the new future. *)
Definition continue_with (self : Future) (continuation_func : FutureView -> outcome)
  : Future * nat * trace :=
  let future := new_Future in
  let '(self', t) := add_done_callback self (continuation continuation_func future) in
  (self', length (_callbacks self), t).

(** The future captured by the closure at position [k]. *)
Definition continuation_future (self : Future) (k : nat) : option Future :=
  match _callbacks self !! k with
  | Some (continuation _ future) => Some future
  | _ => None
  end.

(** A call of one of the two resolvers. *)
Inductive resolver_call :=
| call_set_result (v : value)
| call_set_exception (e : exn).

Definition apply_call (self : Future) (c : resolver_call) : Future :=
  match c with
  | call_set_result v => fst (set_result self v)
  | call_set_exception e => fst (set_exception self e)
  end.

Definition apply_calls (self : Future) (cs : list resolver_call) : Future :=
  foldl apply_call self cs.

(** What the first call alone would make [result()] give. *)
Definition first_call_outcome (c : resolver_call) : outcome :=
  match c with
  | call_set_result v => Returns v
  | call_set_exception e => Raises e
  end.

(** The argument of the last [set_exception] of a sequence, and of the last
    [set_result], starting from what is stored already. *)
Definition last_exception (init : option exn) (cs : list resolver_call) : option exn :=
  foldl (fun acc c => match c with call_set_exception e => Some e | _ => acc end) init cs.

Definition last_result (init : value) (cs : list resolver_call) : value :=
  foldl (fun acc c => match c with call_set_result v => v | _ => acc end) init cs.

(** The continuation function [lambda f: g(f.result())]: it reads the base
    future through [result()], which raises the stored exception. *)
Definition through_result (g : value -> outcome) (f : FutureView) : outcome :=
  match view_exception f with
  | Some e => Raises e
  | None => g (view_result f)
  end.

(** [result()] of the future captured by the closure at position [k]. *)
Definition continuation_result (self : Future) (k : nat) : option outcome :=
  match continuation_future self k with
  | Some future => result future
  | None => None
  end.

(** ** Invocation *)

Definition INVOCATION_TIMEOUT : Z := 120.
Definition RETRY_WAIT_TIME_IN_SECONDS : Z := 1.

(** Connections are objects compared by identity; addresses are opaque. *)
Definition Connection : Type := nat.

Record Address := mkAddress { host : string; port : Z }.

(** The callable stored in [Invocation.event_handler]: what it does when
    called with an event message. *)
Definition EventHandler : Type := ClientMessage -> outcome.

(** Times are the readings of [time.time()]; the module only adds a constant
    to a reading and compares readings with [<], so they are taken in [Z]. *)
Record Invocation := mkInvocation {
  timeout : Z;
  address : option Address;
  connection : option Connection;
  partition_id : Z;
  request : ClientMessage;
  event_handler : option EventHandler;
  future : Future;
  timer : option nat                       (* handle of the armed timer *)
}.

Definition has_connection (self : Invocation) : bool :=
  match connection self with Some _ => true | None => false end.

Definition has_event_handler (self : Invocation) : bool :=
  match event_handler self with Some _ => true | None => false end.

Definition has_partition_id (self : Invocation) : bool :=
  0 <=? partition_id self.

Definition has_address (self : Invocation) : bool :=
  match address self with Some _ => true | None => false end.

Definition with_future (self : Invocation) (f : Future) : Invocation :=
  mkInvocation (timeout self) (address self) (connection self) (partition_id self)
               (request self) (event_handler self) f (timer self).

Definition with_timer (self : Invocation) (h : option nat) : Invocation :=
  mkInvocation (timeout self) (address self) (connection self) (partition_id self)
               (request self) (event_handler self) (future self) h.

Definition with_request (self : Invocation) (m : ClientMessage) : Invocation :=
  mkInvocation (timeout self) (address self) (connection self) (partition_id self)
               m (event_handler self) (future self) (timer self).

(** ** The reactor's timers *)

Inductive TimerDue :=
| AtTime (t : Z)              (* add_timer_absolute *)
| AfterDelay (d : Z).         (* add_timer *)

(** The two callables the module hands to the reactor: the bound method
    [invocation.on_timeout] and [functools.partial(self._invoke, invocation)]. *)
Inductive TimerAction :=
| OnTimeout (invocation : nat)
| Reinvoke (invocation : nat).

Record Timer := mkTimer {
  due : TimerDue;
  action : TimerAction;
  cancelled : bool
}.

Definition cancel (t : Timer) : Timer := mkTimer (due t) (action t) true.

(** ** External collaborators *)

(** The collaborators that invocation.py calls and that are defined outside
    this module: the partition service, the load balancer, the connection
    manager, the clock, and the error catalog of hazelcast.exception and
    hazelcast.protocol.custom_codec.  They are taken as parameters; each is
    total, and the load balancer and the clock answer by the number of the
    call. *)
Record Client := mkClient {
  get_partition_owner : Z -> Address;
  next_address : nat -> Address;
  get_or_connect : Address -> Connection;
  time_time : nat -> Z;
  create_exception : ClientMessage -> exn;       (* create_exception(ErrorCodec(message)) *)
  is_retryable_error : exn -> bool;
  EXCEPTION_MESSAGE_TYPE : Z
}.

(** ** InvocationService *)

(** The service object, the heap of Invocation objects it refers to, and the
    collaborators' state that it changes. *)
Record State := mkState {
  invocations : list Invocation;           (* heap: reference = position *)
  _pending : gmap Z nat;
  _listeners : gmap Z nat;
  _next_correlation_id : Z;
  _is_redo_operation : bool;
  timers : list Timer;                     (* reactor: handle = position *)
  callback_installed : gset Connection;    (* connections whose .callback is set *)
  sent : list (Connection * ClientMessage);(* messages handed to send_message *)
  effects : trace;
  clock_reads : nat;
  balancer_calls : nat
}.

Definition set_invocations (s : State) (x : list Invocation) : State :=
  mkState x (_pending s) (_listeners s) (_next_correlation_id s) (_is_redo_operation s)
          (timers s) (callback_installed s) (sent s) (effects s) (clock_reads s)
          (balancer_calls s).

Definition set_pending (s : State) (x : gmap Z nat) : State :=
  mkState (invocations s) x (_listeners s) (_next_correlation_id s) (_is_redo_operation s)
          (timers s) (callback_installed s) (sent s) (effects s) (clock_reads s)
          (balancer_calls s).

Definition set_listeners (s : State) (x : gmap Z nat) : State :=
  mkState (invocations s) (_pending s) x (_next_correlation_id s) (_is_redo_operation s)
          (timers s) (callback_installed s) (sent s) (effects s) (clock_reads s)
          (balancer_calls s).

Definition set_next_correlation_id (s : State) (x : Z) : State :=
  mkState (invocations s) (_pending s) (_listeners s) x (_is_redo_operation s)
          (timers s) (callback_installed s) (sent s) (effects s) (clock_reads s)
          (balancer_calls s).

Definition set_timers (s : State) (x : list Timer) : State :=
  mkState (invocations s) (_pending s) (_listeners s) (_next_correlation_id s)
          (_is_redo_operation s) x (callback_installed s) (sent s) (effects s)
          (clock_reads s) (balancer_calls s).

Definition set_callback_installed (s : State) (x : gset Connection) : State :=
  mkState (invocations s) (_pending s) (_listeners s) (_next_correlation_id s)
          (_is_redo_operation s) (timers s) x (sent s) (effects s)
          (clock_reads s) (balancer_calls s).

Definition set_sent (s : State) (x : list (Connection * ClientMessage)) : State :=
  mkState (invocations s) (_pending s) (_listeners s) (_next_correlation_id s)
          (_is_redo_operation s) (timers s) (callback_installed s) x (effects s)
          (clock_reads s) (balancer_calls s).

Definition emit (t : trace) (s : State) : State :=
  mkState (invocations s) (_pending s) (_listeners s) (_next_correlation_id s)
          (_is_redo_operation s) (timers s) (callback_installed s) (sent s)
          (effects s ++ t) (clock_reads s) (balancer_calls s).

Definition logger (r : LogRecord) (s : State) : State := emit [Log r] s.

(** [time.time()] *)
Definition read_clock (client : Client) (s : State) : Z * State :=
  (time_time client (clock_reads s),
   mkState (invocations s) (_pending s) (_listeners s) (_next_correlation_id s)
           (_is_redo_operation s) (timers s) (callback_installed s) (sent s)
           (effects s) (S (clock_reads s)) (balancer_calls s)).

(** [self._client.load_balancer.next_address()] *)
Definition load_balancer_next_address (client : Client) (s : State) : Address * State :=
  (next_address client (balancer_calls s),
   mkState (invocations s) (_pending s) (_listeners s) (_next_correlation_id s)
           (_is_redo_operation s) (timers s) (callback_installed s) (sent s)
           (effects s) (clock_reads s) (S (balancer_calls s))).

(** [reactor.add_timer_absolute] / [reactor.add_timer]: the handle returned
    is the position of the new timer. *)
Definition reactor_add (d : TimerDue) (a : TimerAction) (s : State) : nat * State :=
  (length (timers s), set_timers s (timers s ++ [mkTimer d a false])).

(** [timer.cancel()] *)
Definition timer_cancel (h : nat) (s : State) : State :=
  match timers s !! h with
  | Some t => set_timers s (<[h := cancel t]> (timers s))
  | None => s
  end.

(** [connection.send_message(message)] *)
Definition connection_send_message (conn : Connection) (message : ClientMessage)
    (s : State) : State :=
  set_sent s (sent s ++ [(conn, message)]).

(** [Invocation(request, partition_id, address, connection, event_handler)]:
    the new object is put on the heap and its reference returned.  Time is
    in exact integers, where the source adds floating-point seconds; the
    request is held by value, where the source keeps a reference to the
    caller's message object, which [_send] stamps in place. *)
Definition new_Invocation (client : Client) (request : ClientMessage)
    (partition_id : Z) (address : option Address) (connection : option Connection)
    (event_handler : option EventHandler) (timeout : Z) (s : State) : nat * State :=
  let '(now, s) := read_clock client s in
  (length (invocations s),
   set_invocations s
     (invocations s ++
      [mkInvocation (timeout + now) address connection partition_id request
                    event_handler new_Future None])).

(** [if self.timer: self.timer.cancel()] *)
Definition cancel_own_timer (self : Invocation) (s : State) : State :=
  match timer self with
  | Some h => timer_cancel h s
  | None => s
  end.

(** [Invocation.set_response] on the object at reference [i]. *)
Definition Invocation_set_response (i : nat) (response : ClientMessage) (s : State)
  : State :=
  match invocations s !! i with
  | None => s
  | Some self =>
      let s := cancel_own_timer self s in
      let '(f, t) := set_result (future self) (PyMessage response) in
      emit t (set_invocations s (<[i := with_future self f]> (invocations s)))
  end.

(** [Invocation.set_exception] on the object at reference [i]. *)
Definition Invocation_set_exception (i : nat) (exception : exn) (s : State) : State :=
  match invocations s !! i with
  | None => s
  | Some self =>
      let s := cancel_own_timer self s in
      let '(f, t) := set_exception (future self) exception in
      emit t (set_invocations s (<[i := with_future self f]> (invocations s)))
  end.

Definition on_timeout (i : nat) (s : State) : State :=
  Invocation_set_exception i (TimeoutError "Request timed out after 120 seconds.") s.

(** [handle_event]: a handler that raises is logged.  Calling a missing
    handler ([None]) raises as well, inside the same [try]. *)
Definition handle_event (i : nat) (message : ClientMessage) (s : State) : State :=
  match invocations s !! i with
  | None => s
  | Some invocation =>
      match event_handler invocation with
      | Some handler =>
          let s := emit [HandlerCalled i message] s in
          match handler message with
          | Returns _ => s
          | Raises _ => logger (LogEventError message) s
          end
      | None => logger (LogEventError message) s
      end
  end.

(** Modelled from the spec: [AtomicInteger] is defined in hazelcast.util,
    outside this module.  The correlation ids come from a monotonically
    increasing counter, created with the value 1; [increment_and_get()] adds
    one and returns the new value. *)
Definition increment_and_get (s : State) : Z * State :=
  (_next_correlation_id s + 1,
   set_next_correlation_id s (_next_correlation_id s + 1)).

(** [_send] up to, and without, its last statement. *)
Definition _send_register (i : nat) (conn : Connection) (s : State)
  : option (ClientMessage * State) :=
  match invocations s !! i with
  | None => None
  | Some invocation =>
      let '(correlation_id, s) := increment_and_get s in
      let message :=
        set_partition_id (set_correlation_id (request invocation) correlation_id)
                         (partition_id invocation) in
      let invocation := with_request invocation message in
      let s := set_pending s (<[correlation_id := i]> (_pending s)) in
      let '(invocation, s) :=
        match timer invocation with
        | None =>
            let '(h, s) := reactor_add (AtTime (timeout invocation)) (OnTimeout i) s in
            (with_timer invocation (Some h), s)
        | Some _ => (invocation, s)
        end in
      let s := set_invocations s (<[i := invocation]> (invocations s)) in
      let s :=
        if has_event_handler invocation
        then set_listeners s (<[correlation_id := i]> (_listeners s))
        else s in
      let s := logger (LogSending message) s in
      let s :=
        if decide (conn ∈ callback_installed s) then s
        else set_callback_installed s ({[conn]} ∪ callback_installed s) in
      Some (message, s)
  end.

(** [_send].  Its last statement calls [send_message], a method of the
    Connection object handed in, which is defined outside this module: the
    method is the parameter [send_message], and it runs on the state that the
    statements before it have produced.  The connections of this model record
    the message ([connection_send_message]); a connection in general may do
    anything with the state it finds, for instance deliver the response
    before it returns. *)
Definition _send (send_message : Connection -> ClientMessage -> State -> State)
    (i : nat) (conn : Connection) (s : State) : State :=
  match _send_register i conn s with
  | Some (message, s) => send_message conn message s
  | None => s
  end.

Definition _send_to_address (client : Client) (i : nat) (addr : Address) (s : State)
  : State :=
  let conn := get_or_connect client addr in
  _send connection_send_message i conn s.

Definition _invoke (client : Client) (i : nat) (s : State) : State :=
  match invocations s !! i with
  | None => s
  | Some invocation =>
      if has_connection invocation then
        match connection invocation with
        | Some conn => _send connection_send_message i conn s
        | None => s
        end
      else if has_partition_id invocation then
        let addr := get_partition_owner client (partition_id invocation) in
        _send_to_address client i addr s
      else if has_address invocation then
        match address invocation with
        | Some addr => _send_to_address client i addr s
        | None => s
        end
      else
        let '(addr, s) := load_balancer_next_address client s in
        _send_to_address client i addr s
  end.

Definition invoke_on_connection (client : Client) (message : ClientMessage)
    (conn : Connection) (event_handler : option EventHandler) (s : State)
  : nat * State :=
  let '(i, s) := new_Invocation client message (-1) None (Some conn) event_handler
                                INVOCATION_TIMEOUT s in
  (i, _invoke client i s).

Definition invoke_on_partition (client : Client) (message : ClientMessage)
    (partition_id : Z) (event_handler : option EventHandler) (s : State)
  : nat * State :=
  let '(i, s) := new_Invocation client message partition_id None None event_handler
                                INVOCATION_TIMEOUT s in
  (i, _invoke client i s).

Definition invoke_on_random_target (client : Client) (message : ClientMessage)
    (event_handler : option EventHandler) (s : State) : nat * State :=
  let '(i, s) := new_Invocation client message (-1) None None event_handler
                                INVOCATION_TIMEOUT s in
  (i, _invoke client i s).

Definition invoke_on_target (client : Client) (message : ClientMessage)
    (addr : Address) (event_handler : option EventHandler) (s : State)
  : nat * State :=
  let '(i, s) := new_Invocation client message (-1) (Some addr) None event_handler
                                INVOCATION_TIMEOUT s in
  (i, _invoke client i s).

Definition try_retry (client : Client) (i : nat) (s : State) : bool * State :=
  match invocations s !! i with
  | None => (false, s)
  | Some invocation =>
      match connection invocation with
      | Some _ => (false, s)
      | None =>
          let '(now, s) := read_clock client s in
          if timeout invocation <? now then (false, s)
          else
            let s := logger (LogRescheduling (request invocation)
                                             RETRY_WAIT_TIME_IN_SECONDS) s in
            let '(_, s) := reactor_add (AfterDelay RETRY_WAIT_TIME_IN_SECONDS)
                                       (Reinvoke i) s in
            (true, s)
      end
  end.

(** [isinstance(error, (IOError, HazelcastInstanceNotActiveError))] *)
Definition is_transport_error (error : exn) : bool :=
  match error with
  | IOError _ | HazelcastInstanceNotActiveError _ => true
  | _ => false
  end.

Definition handle_exception (client : Client) (i : nat) (error : exn) (s : State)
  : State :=
  match invocations s !! i with
  | None => s
  | Some invocation =>
      let s := logger (LogGotException (request invocation) error) s in
      let '(returned, s) :=
        if is_transport_error error then try_retry client i s else (false, s) in
      if returned then s
      else
        let '(returned, s) :=
          if is_retryable_error client error then
            if retryable (request invocation) || _is_redo_operation s
            then try_retry client i s
            else (false, s)
          else (false, s) in
        if returned then s
        else Invocation_set_exception i error s
  end.

Definition handle_client_message (client : Client) (message : ClientMessage)
    (s : State) : State :=
  let correlation_id := correlation_id message in
  let s := logger (LogReceived message) s in
  if listener_flag message then
    match _listeners s !! correlation_id with
    | None => logger (LogUnknownEvent message) s
    | Some invocation => handle_event invocation message s
    end
  else
    match _pending s !! correlation_id with
    | None => logger (LogUnknownMessage message) s
    | Some invocation =>
        let s := set_pending s (delete correlation_id (_pending s)) in
        if message_type message =? EXCEPTION_MESSAGE_TYPE client then
          let error := create_exception client message in
          handle_exception client invocation error s
        else
          Invocation_set_response invocation message s
    end.

Definition connection_closed_error : exn := IOError "Connection to server was closed.".

(** Whether [invocation.connection == connection] for the object at [i]. *)
Definition bound_to (s : State) (conn : Connection) (i : nat) : bool :=
  match invocations s !! i with
  | Some invocation => bool_decide (connection invocation = Some conn)
  | None => false
  end.

Definition fail_if_bound (conn : Connection) (s : State) (entry : Z * nat) : State :=
  if bound_to s conn entry.2
  then Invocation_set_exception entry.2 connection_closed_error s
  else s.

Definition pop_if_bound (conn : Connection) (s : State) (entry : Z * nat) : State :=
  if bound_to s conn entry.2
  then set_listeners s (delete entry.1 (_listeners s))
  else s.

(** [connection_closed]: both loops run over a copy of the table taken when
    the loop starts.  The entries are visited in the order of [map_to_list],
    which need not be the iteration order of the Python dict; the statements
    about [connection_closed] below do not depend on the order. *)
Definition connection_closed (conn : Connection) (s : State) : State :=
  let s := foldl (fail_if_bound conn) s (map_to_list (_pending s)) in
  foldl (pop_if_bound conn) s (map_to_list (_listeners s)).

(** The reactor calling a timer's callable. *)
Definition run_timer_action (client : Client) (a : TimerAction) (s : State) : State :=
  match a with
  | OnTimeout i => on_timeout i s
  | Reinvoke i => _invoke client i s
  end.

(** [InvocationService(client)] *)
Definition new_InvocationService : State :=
  mkState [] ∅ ∅ 1 false [] ∅ [] [] 0%nat 0%nat.

(** ** A concrete client and concrete states *)

Module Fixture.

Definition client : Client :=
  mkClient (fun p => mkAddress "member" (10 + p))
           (fun n => mkAddress "balanced" (20 + Z.of_nat n))
           (fun a => Z.to_nat (port a))
           (fun n => 1000 + Z.of_nat n)
           (fun m => OtherError "RetryableHazelcastError" (payload m))
           (fun e => match e with
                     | OtherError cls _ => String.eqb cls "RetryableHazelcastError"
                     | _ => false
                     end)
           109.

(** The same client with a clock that, after its first reading, is far
    past every deadline used below. *)
Definition late_client : Client :=
  mkClient (get_partition_owner client) (next_address client)
           (get_or_connect client)
           (fun n => match n with O => 1000 | _ => 5000 + Z.of_nat n end)
           (create_exception client) (is_retryable_error client)
           (EXCEPTION_MESSAGE_TYPE client).

Definition request_msg : ClientMessage := mkMessage 0 0 false 1 false "map.get".

Definition response_msg (cid : Z) : ClientMessage :=
  mkMessage cid 0 false 100 false "value".

Definition event_msg (cid : Z) : ClientMessage :=
  mkMessage cid 0 true 200 false "entry added".

Definition quiet_handler : EventHandler := fun _ => Returns PyNone.
Definition failing_handler : EventHandler :=
  fun m => Raises (OtherError "ValueError" (payload m)).

(** One invocation routed by partition 3, sent once. *)
Definition on_partition : State :=
  (invoke_on_partition client request_msg 3 None new_InvocationService).2.

(** The same under the late clock: sent at 1000, deadline 1120. *)
Definition late_on_partition : State :=
  (invoke_on_partition late_client request_msg 3 None new_InvocationService).2.

(** One plain invocation and one listener invocation, both bound to
    connection 7 and both sent once. *)
Definition two_on_connection : State :=
  let s := (invoke_on_connection client request_msg 7%nat None
                                 new_InvocationService).2 in
  (invoke_on_connection client request_msg 7%nat (Some quiet_handler) s).2.

(** The listener of [two_on_connection] after its registration was
    acknowledged: it is left in the listener table only. *)
Definition acknowledged : State :=
  handle_client_message client (response_msg 3) two_on_connection.

(** An invocation carrying a bound connection, a partition id and an
    address at once, on the heap but not sent yet. *)
Definition all_targets : State :=
  (new_Invocation client request_msg 3 (Some (mkAddress "explicit" 9))
                  (Some 7%nat) None INVOCATION_TIMEOUT new_InvocationService).2.

End Fixture.

(** ** Outcomes of the failure path, as the claims name them *)

(** The invocation at [i] was rescheduled: the reactor got one more timer
    that re-runs [_invoke] on it after the retry wait, and no Invocation
    object changed (in particular no future was resolved). *)
Definition retried (i : nat) (s s' : State) : Prop :=
  timers s' =
    timers s ++ [mkTimer (AfterDelay RETRY_WAIT_TIME_IN_SECONDS) (Reinvoke i) false] ∧
  invocations s' = invocations s.

(** The invocation at [i] failed for good: its future raises [error] from
    [result()], and the reactor was handed no new timer. *)
Definition failed_with (i : nat) (error : exn) (s s' : State) : Prop :=
  action <$> timers s' = action <$> timers s ∧
  ∃ self', invocations s' !! i = Some self' ∧
           result (future self') = Some (Raises error).

(** [try_retry] refuses at the clock reading number [r] and at every later
    one. *)
Definition never_granted (client : Client) (self : Invocation) (r : nat) : Prop :=
  connection self ≠ None ∨
  ∀ n, (r ≤ n)%nat → timeout self < time_time client n.

(** [result()] of the future of the invocation at [i]. *)
Definition result_of (s : State) (i : nat) : option outcome :=
  match invocations s !! i with
  | Some self => result (future self)
  | None => None
  end.

(** Whether [try_retry] grants a retry at the clock reading number [r]. *)
Definition grants (client : Client) (self : Invocation) (r : nat) : bool :=
  match connection self with
  | Some _ => false
  | None => negb (timeout self <? time_time client r)
  end.

(** ** Sending and routing, as the claims name them *)

(** The correlation id the next send will use. *)
Definition next_id (s : State) : Z := _next_correlation_id s + 1.

(** The request as it is stamped by the next send. *)
Definition stamped (s : State) (self : Invocation) : ClientMessage :=
  set_partition_id (set_correlation_id (request self) (next_id s)) (partition_id self).

(** The timer handle the invocation holds once the next send is done. *)
Definition armed (s : State) (self : Invocation) : option nat :=
  match timer self with
  | None => Some (length (timers s))
  | Some h => Some h
  end.

(** The routing priority in the claim's words: the bound connection if there
    is one; otherwise the connection to the owner of the partition if the
    partition id is at least 0; otherwise the connection to the explicit
    address if there is one; otherwise the connection to the address the load
    balancer supplies. *)
Definition routing_target (client : Client) (s : State) (self : Invocation)
  : Connection :=
  match connection self with
  | Some conn => conn
  | None =>
      if decide (0 ≤ partition_id self)
      then get_or_connect client (get_partition_owner client (partition_id self))
      else match address self with
           | Some addr => get_or_connect client addr
           | None => get_or_connect client (next_address client (balancer_calls s))
           end
  end.

(** ** The receive path, as the claims name them *)

(** The message was logged and discarded: nothing but the trace changed, and
    the trace got the "received" record and a warning. *)
Definition dropped (message : ClientMessage) (warning : LogRecord) (s s' : State)
  : Prop :=
  s' = emit [Log (LogReceived message); Log warning] s.

(** How many times the event handler of the invocation at [i] was called. *)
Fixpoint handler_calls (i : nat) (t : trace) : nat :=
  match t with
  | [] => 0%nat
  | HandlerCalled j _ :: rest =>
      if decide (j = i) then S (handler_calls i rest) else handler_calls i rest
  | _ :: rest => handler_calls i rest
  end.

(** Delivery of a sequence of incoming messages, one after the other. *)
Definition deliver (client : Client) (messages : list ClientMessage) (s : State)
  : State :=
  foldl (fun st m => handle_client_message client m st) s messages.

(** ** Connection teardown, as the claims name it *)

(** The future of the invocation at [i] raises the connection-closed error. *)
Definition closed_at (s : State) (i : nat) : Prop :=
  result_of s i = Some (Raises connection_closed_error).

(** A connection whose [send_message] has the answer delivered before it
    returns: it records the message like every connection of this model and
    then calls the callback installed on it, [handle_client_message], with
    the reply. *)
Definition answering (client : Client) (reply : ClientMessage -> ClientMessage)
    (conn : Connection) (message : ClientMessage) (s : State) : State :=
  handle_client_message client (reply message)
                        (connection_send_message conn message s).

(** ** Reading traces *)

(** The calls of client callbacks recorded in a trace, in order. *)
Fixpoint calls_in (t : trace) : list (string * FutureView) :=
  match t with
  | [] => []
  | CallbackCalled name arg :: rest => (name, arg) :: calls_in rest
  | _ :: rest => calls_in rest
  end.

(** The callback failures logged in a trace, in order. *)
Fixpoint callback_errors (t : trace) : list exn :=
  match t with
  | [] => []
  | Log (LogCallbackException e) :: rest => e :: callback_errors rest
  | _ :: rest => callback_errors rest
  end.

(** Callables other than continuations, given by name and behaviour. *)
Definition client_callbacks (cs : list (string * (FutureView -> outcome)))
  : list (callable Future) :=
  map (fun c => client_callback c.1 c.2) cs.

(** The errors the callbacks [cs] raise when called with [view]. *)
Definition raised_by (view : FutureView) (cs : list (string * (FutureView -> outcome)))
  : list exn :=
  omap (fun c => match c.2 view with Raises e => Some e | Returns _ => None end) cs.

(** The calls of client callbacks that one call of [callback] with the
    future [view] makes: its own, for a client callback; for the closure of
    [continue_with], those made by the callbacks of the future it resolves. *)
Definition calls_of (view : FutureView) (callback : callable Future)
  : list (string * FutureView) :=
  match callback with
  | client_callback name _ => [(name, view)]
  | continuation continuation_func future =>
      calls_in (match continuation_func view with
                | Returns x => set_result future x
                | Raises e => set_exception future e
                end).2
  end.

(** ** Chained continuations *)

(** An operation performed on the future captured by the closure at position
    [k]: the caller holds that future as the value returned by
    [continue_with], the closure holds the same object. *)
Definition on_continuation (self : Future) (k : nat) (op : Future -> Future) : Future :=
  mkFuture (_result self) (_exception self) (_event self)
           (alter (fun cb => match cb with
                             | continuation f future => continuation f (op future)
                             | client_callback _ _ => cb
                             end) k (_callbacks self)).

(** [self.continue_with(f).continue_with(g)] on the future [self]. *)
Definition continue_with_twice (self : Future) (f g : FutureView -> outcome) : Future :=
  let '(self', k, _) := continue_with self f in
  on_continuation self' k (fun future => (continue_with future g).1.1).

(** What a future resolved with the outcome [o] of a call shows to a
    callable, when it was fresh before. *)
Definition view_after (o : outcome) : FutureView :=
  match o with
  | Returns v => mkView v None true
  | Raises e => mkView PyNone (Some e) true
  end.

(** ** Runs of the service *)

(** What the entry points of the service and its collaborators can do to the
    state: the four [invoke_on_*] calls, a connection delivering a message,
    a connection reporting that it closed, and the reactor running the
    callable of a timer that was not cancelled. *)
Inductive step (client : Client) : State -> State -> Prop :=
| step_invoke_on_connection message conn handler s :
    step client s (invoke_on_connection client message conn handler s).2
| step_invoke_on_partition message partition handler s :
    step client s (invoke_on_partition client message partition handler s).2
| step_invoke_on_random_target message handler s :
    step client s (invoke_on_random_target client message handler s).2
| step_invoke_on_target message addr handler s :
    step client s (invoke_on_target client message addr handler s).2
| step_handle_client_message message s :
    step client s (handle_client_message client message s)
| step_connection_closed conn s :
    step client s (connection_closed conn s)
| step_timer h t s :
    timers s !! h = Some t → cancelled t = false →
    step client s (run_timer_action client (action t) s).

(** The states the service can be in, starting from [InvocationService(client)]. *)
Definition reachable (client : Client) (s : State) : Prop :=
  rtc (step client) new_InvocationService s.

(** What the tables and the reactor depend on in an Invocation object. *)
Record Shape := mkShape {
  bound : option Connection;
  listens : bool;
  armed_with : option nat;
  deadline : Z
}.

Definition shape_of (self : Invocation) : Shape :=
  mkShape (connection self) (has_event_handler self) (timer self) (timeout self).

Definition shapes (s : State) : list Shape := shape_of <$> invocations s.

(** What a timer will do and when, whether cancelled or not. *)
Definition plan (t : Timer) : TimerDue * TimerAction := (due t, action t).

Definition schedule (s : State) : list (TimerDue * TimerAction) := plan <$> timers s.

(** Consistency of the two tables, the counter, the heap and the reactor:
    registered correlation ids were handed out by the counter and refer to
    live invocations, listeners have an event handler, every deadline timer
    is the one its invocation holds and is due at that invocation's deadline,
    every retry timer is for an invocation without bound connection, and the
    handle an invocation holds is that of its deadline timer. *)
Definition consistent (sh : list Shape) (p l : gmap Z nat) (n : Z)
    (a : list (TimerDue * TimerAction)) : Prop :=
  (∀ cid i, p !! cid = Some i → cid ≤ n ∧ is_Some (sh !! i)) ∧
  (∀ cid i, l !! cid = Some i → cid ≤ n ∧ ∃ x, sh !! i = Some x ∧ listens x = true) ∧
  (∀ h d i, a !! h = Some (d, OnTimeout i) →
            ∃ x, sh !! i = Some x ∧ armed_with x = Some h ∧ d = AtTime (deadline x)) ∧
  (∀ h d i, a !! h = Some (d, Reinvoke i) → ∃ x, sh !! i = Some x ∧ bound x = None) ∧
  (∀ i x h, sh !! i = Some x → armed_with x = Some h →
            a !! h = Some (AtTime (deadline x), OnTimeout i)).

Definition well_formed (s : State) : Prop :=
  consistent (shapes s) (_pending s) (_listeners s) (_next_correlation_id s)
             (schedule s).

(** The shape of an invocation once the next send is done, and the deadline
    timer that send arms. *)
Definition sent_shape (a : list (TimerDue * TimerAction)) (x : Shape) : Shape :=
  mkShape (bound x) (listens x)
          (match armed_with x with None => Some (length a) | Some h => Some h end)
          (deadline x).

Definition deadline_timer (i : nat) (x : Shape) : list (TimerDue * TimerAction) :=
  match armed_with x with
  | None => [(AtTime (deadline x), OnTimeout i)]
  | Some _ => []
  end.

(** The two states agree on everything [well_formed] looks at. *)
Definition same_registry (s s' : State) : Prop :=
  shapes s' = shapes s ∧
  _pending s' = _pending s ∧
  _listeners s' = _listeners s ∧
  _next_correlation_id s' = _next_correlation_id s ∧
  schedule s' = schedule s.

(** ** More concrete runs *)

Module Scenario.

(** A request the caller marked retryable. *)
Definition retryable_msg : ClientMessage := mkMessage 0 0 false 1 true "map.get".

(** An encoded remote exception for correlation id [cid]. *)
Definition exception_msg (cid : Z) : ClientMessage :=
  mkMessage cid 0 false 109 false "member left".

(** The retryable request routed by partition 3 and sent once. *)
Definition sent_retryable : State :=
  (invoke_on_partition Fixture.client retryable_msg 3 None new_InvocationService).2.

(** The same after the cluster answered with a retryable error, 119 seconds
    before the deadline. *)
Definition rescheduled : State :=
  handle_client_message Fixture.client (exception_msg 2) sent_retryable.

(** The same after the reactor ran the retry. *)
Definition resent : State :=
  run_timer_action Fixture.client (Reinvoke 0) rescheduled.

End Scenario.

(** ** Entry points *)

(** What an [invoke_on_*] call that returned [r] did besides sending: the
    heap has exactly one more object, the reference returned is that of the
    new object, whose future is fresh (unresolved, without callbacks) and
    which holds the handler given and the handle of the one timer that was
    added, its deadline timer, due at the deadline stored in it; the object
    is registered under the next correlation id, in the listeners table too
    when a handler was given; the objects that existed before are as they
    were in every field but the request, which is a message the caller may
    share between invocations. *)
Definition started (client : Client) (s : State) (handler : option EventHandler)
    (r : nat * State) : Prop :=
  r.1 = length (invocations s) ∧
  length (invocations r.2) = S (length (invocations s)) ∧
  (∃ self, invocations r.2 !! r.1 = Some self ∧
           future self = new_Future ∧
           event_handler self = handler ∧
           timer self = Some (length (timers s)) ∧
           timers r.2 =
             timers s ++ [mkTimer (AtTime (timeout self)) (OnTimeout r.1) false]) ∧
  _pending r.2 = <[next_id s := r.1]> (_pending s) ∧
  _listeners r.2 =
    match handler with
    | Some _ => <[next_id s := r.1]> (_listeners s)
    | None => _listeners s
    end ∧
  ∀ j old, invocations s !! j = Some old →
           ∃ self', invocations r.2 !! j = Some self' ∧
                    with_request self' (request old) = old.

(** The request with the stamps of the next send for partition id [pid]. *)
Definition stamp (s : State) (message : ClientMessage) (pid : Z) : ClientMessage :=
  set_partition_id (set_correlation_id message (next_id s)) pid.

(** * Properties of Future *)

Lemma set_result_unfold self result :
  set_result self result =
  let '(cbs', t) :=
    _invoke_callbacks (mkView result (_exception self) true) (_callbacks self) in
  (mkFuture result (_exception self) true cbs', t).
Proof. destruct self; reflexivity. Qed.

Lemma set_exception_unfold self exception :
  set_exception self exception =
  let '(cbs', t) :=
    _invoke_callbacks (mkView (_result self) (Some exception) true) (_callbacks self) in
  (mkFuture (_result self) (Some exception) true cbs', t).
Proof. destruct self; reflexivity. Qed.


Lemma set_result_fields self v :
  _result (set_result self v).1 = v ∧
  _exception (set_result self v).1 = _exception self ∧
  _event (set_result self v).1 = true.
Proof.
  rewrite set_result_unfold.
  destruct (_invoke_callbacks _ _) as [cbs' t]; simpl; auto.
Qed.

Lemma set_exception_fields self e :
  _result (set_exception self e).1 = _result self ∧
  _exception (set_exception self e).1 = Some e ∧
  _event (set_exception self e).1 = true.
Proof.
  rewrite set_exception_unfold.
  destruct (_invoke_callbacks _ _) as [cbs' t]; simpl; auto.
Qed.

Lemma apply_call_fields self c :
  _result (apply_call self c) = last_result (_result self) [c] ∧
  _exception (apply_call self c) = last_exception (_exception self) [c] ∧
  _event (apply_call self c) = true.
Proof.
  destruct c as [v|e]; simpl.
  - apply set_result_fields.
  - apply set_exception_fields.
Qed.

Lemma apply_calls_stored cs : ∀ self,
  _result (apply_calls self cs) = last_result (_result self) cs ∧
  _exception (apply_calls self cs) = last_exception (_exception self) cs.
Proof.
  induction cs as [|c cs IH]; intros self; [done|].
  unfold apply_calls, last_result, last_exception in *; simpl.
  destruct (IH (apply_call self c)) as [-> ->].
  destruct (apply_call_fields self c) as (-> & -> & _). done.
Qed.

Lemma apply_calls_event cs : ∀ self,
  _event self = true → _event (apply_calls self cs) = true.
Proof.
  induction cs as [|c cs IH]; intros self H; [done|].
  apply IH. apply apply_call_fields.
Qed.

Lemma result_of_fields (f : Future) :
  _event f = true →
  result f = Some match _exception f with
                  | Some e => Raises e
                  | None => Returns (_result f)
                  end.
Proof. unfold result. intros ->. by destruct (_exception f). Qed.

(** C1, as the claim states it, fails: a second [set_result] overwrites the
    value stored by the first, and [result()] gives the second value. *)
Lemma C1_first_call_does_not_win :
  let calls := [call_set_result (PyInt 1); call_set_result (PyInt 2)] in
  result (apply_calls new_Future calls) = Some (Returns (PyInt 2)) ∧
  result (apply_calls new_Future calls)
    ≠ Some (first_call_outcome (call_set_result (PyInt 1))).
Proof. split; [reflexivity | discriminate]. Qed.

(** C1 (amended): for every Future and every non-empty sequence of
    set_result/set_exception calls, no call raises and done() is true after
    the first call and after every later one, but every call takes effect:
    result() raises the exception given to the last set_exception call when
    there was one (or one was stored before), and otherwise returns the value
    given to the last set_result call. *)
Theorem C1_every_call_overwrites (self : Future) (c : resolver_call)
    (cs : list resolver_call) :
  let after := apply_calls self (c :: cs) in
  done after = true ∧
  result after =
    Some match last_exception (_exception self) (c :: cs) with
         | Some e => Raises e
         | None => Returns (last_result (_result self) (c :: cs))
         end.
Proof.
  intros after.
  assert (Hev : _event after = true).
  { apply (apply_calls_event cs). apply apply_call_fields. }
  split; [exact Hev|].
  rewrite (result_of_fields _ Hev). subst after.
  by destruct (apply_calls_stored (c :: cs) self) as [-> ->].
Qed.

Section callbacks.
Context {F : Type} (invoke : callable F → callable F * trace).

Lemma for_each_callback_length (cbs : list (callable F)) :
  length (for_each_callback invoke cbs).1 = length cbs.
Proof.
  induction cbs as [|cb rest IH]; [done|]. simpl.
  destruct (invoke cb) as [cb' t1].
  destruct (for_each_callback invoke rest) as [rest' t2]; simpl in *.
  by rewrite IH.
Qed.

Lemma for_each_callback_snoc (cbs : list (callable F)) (cb : callable F) :
  (for_each_callback invoke (cbs ++ [cb])).1 =
  (for_each_callback invoke cbs).1 ++ [(invoke cb).1].
Proof.
  induction cbs as [|c rest IH]; simpl.
  - destruct (invoke cb) as [cb' t1]. done.
  - destruct (invoke c) as [c' t1].
    destruct (for_each_callback invoke (rest ++ [cb])) as [l1 t2].
    destruct (for_each_callback invoke rest) as [l2 t3]; simpl in *.
    by rewrite IH.
Qed.

Lemma for_each_callback_last (cbs : list (callable F)) (cb : callable F) :
  (for_each_callback invoke (cbs ++ [cb])).1 !! length cbs = Some (invoke cb).1.
Proof.
  rewrite for_each_callback_snoc.
  rewrite lookup_app_r; rewrite for_each_callback_length; [|lia].
  by rewrite Nat.sub_diag.
Qed.
End callbacks.

(** A fresh future resolved with the outcome of a call gives that outcome
    back from [result()]. *)
Lemma fresh_resolved_with (o : outcome) :
  result (match o with
          | Returns v => set_result new_Future v
          | Raises e => set_exception new_Future e
          end).1 = Some o.
Proof. by destruct o. Qed.

Lemma invoke_cb_continuation (view : FutureView) (f : FutureView → outcome) :
  (_invoke_cb view (continuation f new_Future)).1 =
  continuation f (match f view with
                  | Returns v => set_result new_Future v
                  | Raises e => set_exception new_Future e
                  end).1.
Proof.
  unfold _invoke_cb, invoke_cb_with.
  by destruct (f view) as [v|e]; simpl.
Qed.

Lemma continue_with_unresolved r exc cbs f :
  continue_with (mkFuture r exc false cbs) f =
  (mkFuture r exc false (cbs ++ [continuation f new_Future]), length cbs, []).
Proof. reflexivity. Qed.

Lemma continuation_after_set_result r exc ev cbs f v :
  continuation_result
    (set_result (mkFuture r exc ev (cbs ++ [continuation f new_Future])) v).1
    (length cbs)
  = Some (f (mkView v exc true)).
Proof.
  rewrite set_result_unfold. simpl.
  unfold _invoke_callbacks.
  pose proof (for_each_callback_last (_invoke_cb (mkView v exc true)) cbs
                (continuation f new_Future)) as Hlast.
  destruct (for_each_callback _ _) as [cbs' t].
  unfold continuation_result, continuation_future.
  cbn [fst _callbacks] in *.
  rewrite Hlast, invoke_cb_continuation.
  apply fresh_resolved_with.
Qed.

Lemma continuation_after_set_exception r exc ev cbs f e :
  continuation_result
    (set_exception (mkFuture r exc ev (cbs ++ [continuation f new_Future])) e).1
    (length cbs)
  = Some (f (mkView r (Some e) true)).
Proof.
  rewrite set_exception_unfold. simpl.
  unfold _invoke_callbacks.
  pose proof (for_each_callback_last (_invoke_cb (mkView r (Some e) true)) cbs
                (continuation f new_Future)) as Hlast.
  destruct (for_each_callback _ _) as [cbs' t].
  unfold continuation_result, continuation_future.
  cbn [fst _callbacks] in *.
  rewrite Hlast, invoke_cb_continuation.
  apply fresh_resolved_with.
Qed.

(** C4, as the claim states it, fails: when the base future resolves with an
    error the continuation function is still called (with the base future),
    and the continuation resolves with what it returns, here the value 7,
    not with the base future's error. *)
Lemma C4_continuation_runs_on_error :
  let f := fun _ : FutureView => Returns (PyInt 7) in
  let err := OtherError "ValueError" "boom" in
  let base := (continue_with new_Future f).1.1 in
  let k := (continue_with new_Future f).1.2 in
  continuation_result (set_exception base err).1 k = Some (Returns (PyInt 7)) ∧
  continuation_result (set_exception base err).1 k ≠ Some (Raises err).
Proof. split; [reflexivity | discriminate]. Qed.

(** C4 (amended): continue_with(f) on an unresolved base future: when the
    base future resolves, with a value v or with an error e, f is called with
    the base future itself (not with v), and the continuation future
    resolves with what f returns, or with the error f raises; on a base
    future that is already resolved f is called at once.  So for
    f = lambda fut: g(fut.result()) the continuation resolves with g(v) when
    the base resolves with v, and with the base's error, g never being
    called, when the base resolves with an error. *)
Theorem C4_continue_with (r : value) (cbs : list (callable Future))
    (f : FutureView → outcome) (g : value → outcome) :
  let base := mkFuture r None false cbs in
  let chained := (continue_with base f).1.1 in
  let k := (continue_with base f).1.2 in
  let chained_g := (continue_with base (through_result g)).1.1 in
  continuation_result chained k = None ∧
  (∀ v, continuation_result (set_result chained v).1 k
        = Some (f (mkView v None true))) ∧
  (∀ e, continuation_result (set_exception chained e).1 k
        = Some (f (mkView r (Some e) true))) ∧
  (∀ exc, continuation_result (continue_with (mkFuture r exc true cbs) f).1.1 k
          = Some (f (mkView r exc true))) ∧
  (∀ v, continuation_result (set_result chained_g v).1 k = Some (g v)) ∧
  (∀ e, continuation_result (set_exception chained_g e).1 k = Some (Raises e)).
Proof.
  intros base chained k chained_g.
  subst chained k chained_g base. rewrite !continue_with_unresolved.
  cbn [fst snd].
  repeat split.
  - unfold continuation_result, continuation_future. cbn [_callbacks].
    rewrite lookup_app_r, Nat.sub_diag by lia. reflexivity.
  - intros v. apply continuation_after_set_result.
  - intros e. apply continuation_after_set_exception.
  - intros exc. unfold continue_with, add_done_callback. cbn [done _event].
    rewrite (surjective_pairing (_invoke_cb _ _)). cbn [fst snd].
    unfold continuation_result, continuation_future. cbn [_callbacks _result _exception].
    rewrite lookup_app_r, Nat.sub_diag by lia. cbn [lookup list_lookup].
    rewrite invoke_cb_continuation. apply fresh_resolved_with.
  - intros v. by rewrite continuation_after_set_result.
  - intros e. by rewrite continuation_after_set_exception.
Qed.

(** * Properties of the invocation service *)

(** Unfolding of the state-record helpers. *)
Ltac state_simpl :=
  cbn [logger read_clock load_balancer_next_address reactor_add
       connection_send_message emit set_invocations set_pending set_listeners
       set_next_correlation_id set_timers set_callback_installed set_sent
       invocations _pending _listeners _next_correlation_id _is_redo_operation
       timers callback_installed sent effects clock_reads balancer_calls
       fst snd] in *.

Section timers.

Lemma timer_cancel_frame h s :
  invocations (timer_cancel h s) = invocations s ∧
  _pending (timer_cancel h s) = _pending s ∧
  _listeners (timer_cancel h s) = _listeners s ∧
  sent (timer_cancel h s) = sent s ∧
  effects (timer_cancel h s) = effects s ∧
  _is_redo_operation (timer_cancel h s) = _is_redo_operation s.
Proof. unfold timer_cancel. by destruct (timers s !! h). Qed.

Lemma timer_cancel_actions h s :
  action <$> timers (timer_cancel h s) = action <$> timers s.
Proof.
  unfold timer_cancel. destruct (timers s !! h) as [t|] eqn:Ht; [|done].
  state_simpl. rewrite list_fmap_insert. apply list_insert_id.
  by rewrite list_lookup_fmap, Ht.
Qed.

End timers.

Lemma cancel_own_timer_frame self s :
  invocations (cancel_own_timer self s) = invocations s ∧
  _pending (cancel_own_timer self s) = _pending s ∧
  _listeners (cancel_own_timer self s) = _listeners s ∧
  sent (cancel_own_timer self s) = sent s ∧
  effects (cancel_own_timer self s) = effects s ∧
  _is_redo_operation (cancel_own_timer self s) = _is_redo_operation s.
Proof. unfold cancel_own_timer. destruct (timer self); [apply timer_cancel_frame|done]. Qed.

Lemma cancel_own_timer_actions self s :
  action <$> timers (cancel_own_timer self s) = action <$> timers s.
Proof. unfold cancel_own_timer. destruct (timer self); [apply timer_cancel_actions|done]. Qed.

Section set_exception.
Context (i : nat) (e : exn) (s : State) (self : Invocation).
Hypothesis Hself : invocations s !! i = Some self.

Lemma Invocation_set_exception_heap :
  invocations (Invocation_set_exception i e s) =
  <[i := with_future self (set_exception (future self) e).1]> (invocations s).
Proof.
  unfold Invocation_set_exception. rewrite Hself.
  destruct (set_exception (future self) e) as [f t]. state_simpl.
  by destruct (cancel_own_timer_frame self s) as (-> & _).
Qed.

Lemma Invocation_set_exception_self :
  invocations (Invocation_set_exception i e s) !! i =
  Some (with_future self (set_exception (future self) e).1).
Proof.
  rewrite Invocation_set_exception_heap.
  apply list_lookup_insert_eq. by eapply lookup_lt_Some.
Qed.

Lemma Invocation_set_exception_other j :
  j ≠ i →
  invocations (Invocation_set_exception i e s) !! j = invocations s !! j.
Proof.
  intros. rewrite Invocation_set_exception_heap. by apply list_lookup_insert_ne.
Qed.

Lemma Invocation_set_exception_result :
  ∃ self', invocations (Invocation_set_exception i e s) !! i = Some self' ∧
           connection self' = connection self ∧
           result (future self') = Some (Raises e).
Proof.
  eexists. split; [apply Invocation_set_exception_self|]. split; [done|].
  cbn [with_future future].
  destruct (set_exception_fields (future self) e) as (_ & Hexc & Hev).
  by rewrite (result_of_fields _ Hev), Hexc.
Qed.
End set_exception.

Lemma Invocation_set_exception_frame i e s :
  _pending (Invocation_set_exception i e s) = _pending s ∧
  _listeners (Invocation_set_exception i e s) = _listeners s ∧
  sent (Invocation_set_exception i e s) = sent s ∧
  action <$> timers (Invocation_set_exception i e s) = action <$> timers s.
Proof.
  unfold Invocation_set_exception. destruct (invocations s !! i) as [self|]; [|done].
  destruct (set_exception (future self) e) as [f t]. state_simpl.
  destruct (cancel_own_timer_frame self s) as (_ & -> & -> & -> & _).
  by rewrite cancel_own_timer_actions.
Qed.

Lemma Invocation_set_response_frame i m s :
  _pending (Invocation_set_response i m s) = _pending s ∧
  _listeners (Invocation_set_response i m s) = _listeners s ∧
  sent (Invocation_set_response i m s) = sent s ∧
  action <$> timers (Invocation_set_response i m s) = action <$> timers s.
Proof.
  unfold Invocation_set_response. destruct (invocations s !! i) as [self|]; [|done].
  destruct (set_result (future self) (PyMessage m)) as [f t]. state_simpl.
  destruct (cancel_own_timer_frame self s) as (_ & -> & -> & -> & _).
  by rewrite cancel_own_timer_actions.
Qed.

(** ** try_retry and handle_exception *)

(** Whether [try_retry] grants a retry, given the clock reading it takes. *)
Lemma try_retry_unbound client i s self :
  invocations s !! i = Some self →
  connection self = None →
  try_retry client i s =
  if timeout self <? time_time client (clock_reads s)
  then (false, (read_clock client s).2)
  else (true,
        (reactor_add (AfterDelay RETRY_WAIT_TIME_IN_SECONDS) (Reinvoke i)
           (logger (LogRescheduling (request self) RETRY_WAIT_TIME_IN_SECONDS)
                   (read_clock client s).2)).2).
Proof.
  intros Hself Hconn. unfold try_retry. rewrite Hself, Hconn.
  cbn [read_clock fst snd]. by destruct (_ <? _).
Qed.

Lemma try_retry_bound client i s self conn :
  invocations s !! i = Some self →
  connection self = Some conn →
  try_retry client i s = (false, s).
Proof. intros Hself Hconn. unfold try_retry. by rewrite Hself, Hconn. Qed.

Lemma try_retry_refused_frame client i s :
  (try_retry client i s).1 = false →
  invocations (try_retry client i s).2 = invocations s ∧
  timers (try_retry client i s).2 = timers s ∧
  _pending (try_retry client i s).2 = _pending s ∧
  _is_redo_operation (try_retry client i s).2 = _is_redo_operation s ∧
  (clock_reads (try_retry client i s).2 ≤ S (clock_reads s))%nat ∧
  (clock_reads s ≤ clock_reads (try_retry client i s).2)%nat.
Proof.
  unfold try_retry. destruct (invocations s !! i) as [self|];
    [|cbn [fst snd]; repeat split; (done || lia)].
  destruct (connection self); [cbn [fst snd]; repeat split; (done || lia)|].
  cbn [read_clock fst snd]. destruct (_ <? _); [|done].
  state_simpl. repeat split; (done || lia).
Qed.

Lemma try_retry_granted client i s :
  (try_retry client i s).1 = true →
  invocations (try_retry client i s).2 = invocations s ∧
  _pending (try_retry client i s).2 = _pending s ∧
  timers (try_retry client i s).2 =
    timers s ++ [mkTimer (AfterDelay RETRY_WAIT_TIME_IN_SECONDS) (Reinvoke i) false].
Proof.
  unfold try_retry. destruct (invocations s !! i) as [self|]; [|done].
  destruct (connection self); [done|].
  cbn [read_clock fst snd]. destruct (_ <? _); [done|].
  by state_simpl.
Qed.

Lemma try_retry_refuses_iff client i s self :
  invocations s !! i = Some self →
  (try_retry client i s).1 = false ↔
  (connection self ≠ None ∨ timeout self < time_time client (clock_reads s)).
Proof.
  intros Hself. destruct (connection self) as [conn|] eqn:Hconn.
  - rewrite (try_retry_bound _ _ _ _ _ Hself Hconn). split; [by left|done].
  - rewrite (try_retry_unbound _ _ _ _ Hself Hconn).
    destruct (Z.ltb_spec (timeout self) (time_time client (clock_reads s))).
    + split; [by right|done].
    + split; [done|]. intros [?|?]; [done|lia].
Qed.

Lemma never_granted_refuses client i s self :
  invocations s !! i = Some self →
  never_granted client self (clock_reads s) →
  (try_retry client i s).1 = false.
Proof.
  intros Hself Hnever. apply (try_retry_refuses_iff _ _ _ _ Hself).
  destruct Hnever as [?|Hlate]; [by left|right]. by apply Hlate.
Qed.

Lemma never_granted_later client self r r' :
  (r ≤ r')%nat → never_granted client self r → never_granted client self r'.
Proof.
  intros Hle [?|Hlate]; [by left|right]. intros n Hn. apply Hlate. lia.
Qed.

Lemma set_exception_fails i error s0 s self :
  invocations s0 !! i = Some self →
  invocations s = invocations s0 →
  timers s = timers s0 →
  failed_with i error s0 (Invocation_set_exception i error s).
Proof.
  intros Hself Hheap Htimers. rewrite <- Hheap in Hself. split.
  - destruct (Invocation_set_exception_frame i error s) as (_ & _ & _ & ->).
    by rewrite Htimers.
  - destruct (Invocation_set_exception_result i error s self Hself)
      as (self' & ? & _ & ?). eauto.
Qed.

Lemma handle_exception_unfold client i error s self :
  invocations s !! i = Some self →
  handle_exception client i error s =
  let s0 := logger (LogGotException (request self) error) s in
  let first :=
    if is_transport_error error then try_retry client i s0 else (false, s0) in
  if first.1 then first.2
  else
    let second :=
      if is_retryable_error client error then
        if retryable (request self) || _is_redo_operation first.2
        then try_retry client i first.2
        else (false, first.2)
      else (false, first.2) in
    if second.1 then second.2
    else Invocation_set_exception i error second.2.
Proof.
  intros Hself. unfold handle_exception. rewrite Hself. cbv zeta.
  destruct (if is_transport_error error then _ else _) as [[] s1]; [done|].
  cbn [fst snd].
  by destruct (if is_retryable_error client error then _ else _) as [[] s2].
Qed.

(** When [try_retry] can only refuse, every error ends on the future. *)
Lemma handle_exception_terminal client i error s self :
  invocations s !! i = Some self →
  never_granted client self (clock_reads s) →
  failed_with i error s (handle_exception client i error s).
Proof.
  intros Hself Hnever.
  rewrite (handle_exception_unfold _ _ _ _ _ Hself). cbv zeta.
  set (s0 := logger _ s).
  assert (Hself0 : invocations s0 !! i = Some self) by done.
  assert (Hr0 : (try_retry client i s0).1 = false)
    by (by apply (never_granted_refuses _ _ _ self)).
  pose proof (try_retry_refused_frame _ _ _ Hr0) as (Hh0 & Ht0 & _ & _ & _ & Hc0).
  set (first := if is_transport_error error then _ else _).
  assert (Hfirst : first.1 = false ∧ invocations first.2 = invocations s ∧
                   timers first.2 = timers s ∧
                   (clock_reads s ≤ clock_reads first.2)%nat).
  { subst first. destruct (is_transport_error error); [|done].
    by rewrite Hr0, Hh0, Ht0. }
  destruct Hfirst as (-> & Hh1 & Ht1 & Hc1).
  assert (Hself1 : invocations first.2 !! i = Some self) by (by rewrite Hh1).
  assert (Hr1 : (try_retry client i first.2).1 = false).
  { apply (never_granted_refuses _ _ _ self); [done|].
    by apply (never_granted_later _ _ (clock_reads s)). }
  pose proof (try_retry_refused_frame _ _ _ Hr1) as (Hh2 & Ht2 & _).
  set (second := if is_retryable_error client error then _ else _).
  assert (Hsecond : second.1 = false ∧ invocations second.2 = invocations s ∧
                    timers second.2 = timers s).
  { subst second. destruct (is_retryable_error client error); [|done].
    destruct (_ || _); [|done]. by rewrite Hr1, Hh2, Ht2. }
  destruct Hsecond as (-> & Hh & Ht).
  by apply (set_exception_fails _ _ s _ self).
Qed.

(** A granted retry on the first [try_retry] of a transport failure. *)
Lemma handle_exception_transport_retried client i error s self :
  invocations s !! i = Some self →
  is_transport_error error = true →
  connection self = None →
  ¬ timeout self < time_time client (clock_reads s) →
  retried i s (handle_exception client i error s).
Proof.
  intros Hself Htransport Hconn Hdeadline.
  rewrite (handle_exception_unfold _ _ _ _ _ Hself). cbv zeta.
  rewrite Htransport. set (s0 := logger _ s).
  assert (Hself0 : invocations s0 !! i = Some self) by done.
  assert (Hgranted : (try_retry client i s0).1 = true).
  { destruct (try_retry client i s0).1 eqn:E; [done|].
    apply (try_retry_refuses_iff _ _ _ _ Hself0) in E as [?|?]; done. }
  rewrite Hgranted.
  by pose proof (try_retry_granted _ _ _ Hgranted) as (? & _ & ?).
Qed.

(** C2, as the claim states it, fails: a transport failure that arrives after
    the deadline does not resolve the future with a timeout error; the future
    raises the transport error itself. *)
Lemma C2_late_failure_is_not_a_timeout :
  let s := Fixture.late_on_partition in
  let s' := handle_exception Fixture.late_client 0 (IOError "reset") s in
  (connection <$> invocations s !! 0%nat) = Some None ∧
  (timeout <$> invocations s !! 0%nat) = Some 1120 ∧
  time_time Fixture.late_client (clock_reads s) = 5001 ∧
  result_of s' 0 = Some (Raises (IOError "reset")) ∧
  ¬ ∃ msg, result_of s' 0 = Some (Raises (TimeoutError msg)).
Proof.
  repeat split; try reflexivity.
  intros [msg H]. vm_compute in H. discriminate.
Qed.

(** C2 (amended): try_retry refuses to retry exactly when the invocation is
    bound to a specific connection or its absolute deadline is strictly
    before the current clock reading; a transport failure on a
    non-connection-bound invocation whose deadline has not passed is retried,
    while the same failure on an invocation for which try_retry refuses
    resolves the invocation's future with that transport error itself as a
    terminal failure, with no retry scheduled. *)
Theorem C2_try_retry (client : Client) (s : State) (i : nat) (self : Invocation)
    (error : exn) :
  invocations s !! i = Some self →
  is_transport_error error = true →
  ((try_retry client i s).1 = false ↔
     (connection self ≠ None ∨ timeout self < time_time client (clock_reads s))) ∧
  (connection self = None →
   ¬ timeout self < time_time client (clock_reads s) →
   retried i s (handle_exception client i error s)) ∧
  (never_granted client self (clock_reads s) →
   failed_with i error s (handle_exception client i error s)).
Proof.
  intros Hself Htransport. split; [|split].
  - by apply try_retry_refuses_iff.
  - by apply handle_exception_transport_retried.
  - by apply handle_exception_terminal.
Qed.

(** C2 at work: a transport failure on the partition-routed invocation,
    120 seconds before its deadline, is rescheduled. *)
Lemma C2_try_retry_witness :
  retried 0 Fixture.on_partition
          (handle_exception Fixture.client 0 (IOError "reset") Fixture.on_partition).
Proof.
  refine (proj1 (proj2 (C2_try_retry Fixture.client Fixture.on_partition 0 _
                                     (IOError "reset") _ _)) _ _).
  - reflexivity.
  - reflexivity.
  - reflexivity.
  - vm_compute. discriminate.
Defined.

(** ** Retryable errors of the error catalog *)

Lemma grants_true client self r :
  grants client self r = true ↔
  connection self = None ∧ ¬ timeout self < time_time client r.
Proof.
  unfold grants. destruct (connection self).
  - split; [done|]. by intros [? _].
  - destruct (Z.ltb_spec (timeout self) (time_time client r)); simpl.
    + split; [done|]. intros [_ ?]. lia.
    + split; [|done]. intros _. split; [done|lia].
Qed.

Lemma grants_try_retry client i s self :
  invocations s !! i = Some self →
  grants client self (clock_reads s) = (try_retry client i s).1.
Proof.
  intros Hself. unfold grants. destruct (connection self) as [conn|] eqn:Hconn.
  - by rewrite (try_retry_bound _ _ _ _ _ Hself Hconn).
  - rewrite (try_retry_unbound _ _ _ _ Hself Hconn). by destruct (_ <? _).
Qed.

Lemma retried_not_failed i error s s' :
  retried i s s' → failed_with i error s s' → False.
Proof.
  intros [Ht _] [Ha _]. apply (f_equal length) in Ha.
  rewrite !length_fmap, Ht, length_app in Ha. simpl in Ha. lia.
Qed.

Lemma handle_exception_catalog client i error s self :
  invocations s !! i = Some self →
  is_transport_error error = false →
  is_retryable_error client error = true →
  if (retryable (request self) || _is_redo_operation s)
     && grants client self (clock_reads s)
  then retried i s (handle_exception client i error s)
  else failed_with i error s (handle_exception client i error s).
Proof.
  intros Hself Htransport Hcatalog.
  rewrite (handle_exception_unfold _ _ _ _ _ Hself). cbv zeta.
  rewrite Htransport, Hcatalog. cbn [fst snd].
  set (s0 := logger _ s).
  assert (Hself0 : invocations s0 !! i = Some self) by done.
  change (_is_redo_operation s0) with (_is_redo_operation s).
  destruct (retryable (request self) || _is_redo_operation s); cbn [andb fst snd].
  - destruct (grants client self (clock_reads s)) eqn:Hg.
    + apply grants_true in Hg as [Hconn Hdeadline].
      assert (Hgranted : (try_retry client i s0).1 = true).
      { destruct (try_retry client i s0).1 eqn:E; [done|].
        apply (try_retry_refuses_iff _ _ _ _ Hself0) in E as [?|?]; done. }
      rewrite Hgranted.
      by pose proof (try_retry_granted _ _ _ Hgranted) as (? & _ & ?).
    + assert (Hrefused : (try_retry client i s0).1 = false).
      { destruct (try_retry client i s0).1 eqn:E; [|done].
        assert (grants client self (clock_reads s) = true); [|congruence].
        apply grants_true.
        destruct (connection self) eqn:Hconn.
        - by rewrite (try_retry_bound _ _ _ _ _ Hself0 Hconn) in E.
        - split; [done|]. intros Hlate.
          assert ((try_retry client i s0).1 = false); [|congruence].
          apply (try_retry_refuses_iff _ _ _ _ Hself0). by right. }
      rewrite Hrefused.
      pose proof (try_retry_refused_frame _ _ _ Hrefused) as (? & ? & _).
      by apply (set_exception_fails _ _ s _ self).
  - by apply (set_exception_fails _ _ s _ self).
Qed.

(** C5: when handle_exception receives an error that the error catalog
    classifies as retryable and that is not a transport or
    instance-not-active failure, the invocation is retried if and only if the
    request is marked retryable or the service redoes operations, and
    try_retry grants the retry; otherwise, in particular with redo disabled
    and a request not marked retryable, the invocation's future is resolved
    with that error. *)
Theorem C5_retryable_error (client : Client) (s : State) (i : nat)
    (self : Invocation) (error : exn) :
  invocations s !! i = Some self →
  is_transport_error error = false →
  is_retryable_error client error = true →
  let s' := handle_exception client i error s in
  let wanted := retryable (request self) || _is_redo_operation s in
  grants client self (clock_reads s) = (try_retry client i s).1 ∧
  (retried i s s' ↔ wanted = true ∧ grants client self (clock_reads s) = true) ∧
  (¬ (wanted = true ∧ grants client self (clock_reads s) = true) →
   failed_with i error s s') ∧
  (retryable (request self) = false → _is_redo_operation s = false →
   failed_with i error s s').
Proof.
  intros Hself Htransport Hcatalog s' wanted.
  split; [by apply grants_try_retry|].
  pose proof (handle_exception_catalog _ _ _ _ _ Hself Htransport Hcatalog) as H.
  fold s' wanted in H.
  destruct wanted eqn:Hw, (grants client self (clock_reads s)) eqn:Hg;
    cbn [andb] in H.
  - split; [done|]. split; [by intros []|].
    intros Hr Hredo. subst wanted. rewrite Hr, Hredo in Hw. done.
  - split; [|split; by intros].
    split; [|by intros [_ ?]]. intros Hret. destruct (retried_not_failed _ _ _ _ Hret H).
  - split; [|split; by intros].
    split; [|by intros [? _]]. intros Hret. destruct (retried_not_failed _ _ _ _ Hret H).
  - split; [|split; by intros].
    split; [|by intros [? _]]. intros Hret. destruct (retried_not_failed _ _ _ _ Hret H).
Qed.

(** C5 at work: redo is off and the request is not marked retryable, so a
    catalog-retryable error ends on the future. *)
Lemma C5_retryable_error_witness :
  let error := OtherError "RetryableHazelcastError" "member left" in
  failed_with 0 error Fixture.on_partition
              (handle_exception Fixture.client 0 error Fixture.on_partition).
Proof.
  refine (proj2 (proj2 (proj2
            (C5_retryable_error Fixture.client Fixture.on_partition 0 _
               (OtherError "RetryableHazelcastError" "member left") _ _ _))) _ _);
    reflexivity.
Defined.

(** ** The send path *)

Section send.
Context (i : nat) (conn : Connection) (s : State) (self : Invocation).
Hypothesis Hself : invocations s !! i = Some self.

Lemma _send_register_spec :
  ∃ s1, _send_register i conn s = Some (stamped s self, s1) ∧
    sent s1 = sent s ∧
    _pending s1 = <[next_id s := i]> (_pending s) ∧
    _listeners s1 =
      (if has_event_handler self then <[next_id s := i]> (_listeners s)
       else _listeners s) ∧
    timers s1 =
      match timer self with
      | None => timers s ++ [mkTimer (AtTime (timeout self)) (OnTimeout i) false]
      | Some _ => timers s
      end ∧
    invocations s1 =
      <[i := with_timer (with_request self (stamped s self)) (armed s self)]>
      (invocations s) ∧
    _next_correlation_id s1 = next_id s.
Proof.
  unfold _send_register, increment_and_get. rewrite Hself. cbv beta iota zeta.
  fold (next_id s). fold (stamped s self). unfold armed.
  destruct (timer self) as [h|] eqn:Htimer; cbn [with_request timer];
    rewrite ?Htimer; state_simpl;
    destruct (event_handler self) eqn:Hh; unfold has_event_handler;
    cbn [with_request with_timer event_handler]; rewrite Hh; state_simpl;
    case_decide; eexists; (split; [reflexivity|]); state_simpl;
    rewrite ?Htimer; repeat split; try done;
    unfold with_timer, with_request;
    cbn [timeout address connection partition_id request event_handler future timer];
    by rewrite ?Htimer.
Qed.

Lemma _send_unfold :
  ∃ s1, _send_register i conn s = Some (stamped s self, s1) ∧
        _send connection_send_message i conn s =
          connection_send_message conn (stamped s self) s1.
Proof.
  destruct _send_register_spec as (s1 & Hreg & _).
  exists s1. split; [done|]. unfold _send. by rewrite Hreg.
Qed.

Lemma _send_sent :
  sent (_send connection_send_message i conn s) = sent s ++ [(conn, stamped s self)].
Proof.
  destruct _send_register_spec as (s1 & Hreg & Hsent & _).
  unfold _send. rewrite Hreg. state_simpl. by rewrite Hsent.
Qed.

Lemma _send_timers :
  timers (_send connection_send_message i conn s) =
  match timer self with
  | None => timers s ++ [mkTimer (AtTime (timeout self)) (OnTimeout i) false]
  | Some _ => timers s
  end.
Proof.
  destruct _send_register_spec as (s1 & Hreg & _ & _ & _ & Ht & _).
  unfold _send. rewrite Hreg. by state_simpl.
Qed.

Lemma _send_invocation :
  invocations (_send connection_send_message i conn s) !! i =
  Some (with_timer (with_request self (stamped s self)) (armed s self)).
Proof.
  destruct _send_register_spec as (s1 & Hreg & _ & _ & _ & _ & Hh & _).
  unfold _send. rewrite Hreg. state_simpl. rewrite Hh.
  apply list_lookup_insert_eq. by eapply lookup_lt_Some.
Qed.
End send.

Lemma _send_twice_timers i conn conn' s self :
  invocations s !! i = Some self →
  timers (_send connection_send_message i conn'
                (_send connection_send_message i conn s)) =
  timers (_send connection_send_message i conn s).
Proof.
  intros Hself.
  rewrite (_send_timers i conn' _ _ (_send_invocation i conn s self Hself)).
  unfold armed. cbn [with_timer timer]. by destruct (timer self).
Qed.

(** ** Routing *)

Lemma _invoke_target client i s self :
  invocations s !! i = Some self →
  ∃ s0, _invoke client i s =
          _send connection_send_message i (routing_target client s self) s0 ∧
        invocations s0 = invocations s ∧
        _next_correlation_id s0 = _next_correlation_id s ∧
        sent s0 = sent s.
Proof.
  intros Hself. unfold _invoke, routing_target, has_connection, has_partition_id,
    has_address, _send_to_address.
  rewrite Hself. destruct (connection self) as [conn|]; [by exists s|].
  destruct (Z.leb_spec 0 (partition_id self)); case_decide; try lia;
    [by exists s|].
  destruct (address self) as [addr|]; [by exists s|].
  by eexists.
Qed.

(** C3: for every invocation, routing follows the strict priority bound
    connection, then partition owner for a partition id of at least 0, then
    explicit address, then load balancer: the message of the send goes to
    that target, on the first send and when the reactor runs the retry; a
    bound connection is the target whatever partition id or address the
    invocation also carries. *)
Theorem C3_routing_priority (client : Client) (i : nat) (s : State)
    (self : Invocation) :
  invocations s !! i = Some self →
  sent (_invoke client i s) =
    sent s ++ [(routing_target client s self, stamped s self)] ∧
  sent (run_timer_action client (Reinvoke i) s) =
    sent s ++ [(routing_target client s self, stamped s self)] ∧
  (∀ conn, connection self = Some conn → routing_target client s self = conn).
Proof.
  intros Hself.
  assert (Hsent : sent (_invoke client i s) =
                  sent s ++ [(routing_target client s self, stamped s self)]).
  { destruct (_invoke_target client i s self Hself) as (s0 & -> & Hh & Hid & Hs).
    rewrite <- Hh in Hself. rewrite (_send_sent _ _ _ _ Hself), Hs.
    unfold stamped, next_id. by rewrite Hid. }
  split; [done|]. split; [done|].
  intros conn Hconn. unfold routing_target. by rewrite Hconn.
Qed.

(** C3 at work: an invocation carrying connection 7, partition 3 and an
    explicit address is sent on connection 7. *)
Lemma C3_routing_priority_witness :
  sent (_invoke Fixture.client 0 Fixture.all_targets) =
    [(7%nat, mkMessage 2 3 false 1 false "map.get")].
Proof.
  exact (proj1 (C3_routing_priority Fixture.client 0 Fixture.all_targets
                  (mkInvocation 1120 (Some (mkAddress "explicit" 9)) (Some 7%nat) 3
                                Fixture.request_msg None new_Future None)
                  eq_refl)).
Defined.

(** ** The receive path *)

Lemma try_retry_tables client i s :
  _pending (try_retry client i s).2 = _pending s ∧
  _listeners (try_retry client i s).2 = _listeners s.
Proof.
  unfold try_retry. destruct (invocations s !! i) as [self|]; [|done].
  destruct (connection self); [done|].
  cbn [read_clock fst snd]. by destruct (_ <? _).
Qed.

Lemma handle_exception_tables client i error s :
  _pending (handle_exception client i error s) = _pending s ∧
  _listeners (handle_exception client i error s) = _listeners s.
Proof.
  destruct (invocations s !! i) as [self|] eqn:Hself;
    [|by unfold handle_exception; rewrite Hself].
  rewrite (handle_exception_unfold _ _ _ _ _ Hself). cbv zeta.
  set (s0 := logger _ s).
  set (first := if is_transport_error error then _ else _).
  assert (Hfirst : _pending first.2 = _pending s ∧ _listeners first.2 = _listeners s).
  { subst first. destruct (is_transport_error error); [|done].
    by destruct (try_retry_tables client i s0) as [-> ->]. }
  destruct first.1; [done|].
  set (second := if is_retryable_error client error then _ else _).
  assert (Hsecond : _pending second.2 = _pending s ∧ _listeners second.2 = _listeners s).
  { subst second. destruct (is_retryable_error client error); [|done].
    destruct (_ || _); [|done].
    destruct (try_retry_tables client i first.2) as [-> ->]. done. }
  destruct second.1; [done|].
  destruct (Invocation_set_exception_frame i error second.2) as (-> & -> & _).
  done.
Qed.

Lemma emit_emit t1 t2 s : emit t2 (emit t1 s) = emit (t1 ++ t2) s.
Proof. unfold emit; cbn. by rewrite <- app_assoc. Qed.

Lemma unknown_response_dropped client message s :
  listener_flag message = false →
  _pending s !! correlation_id message = None →
  dropped message (LogUnknownMessage message) s
          (handle_client_message client message s).
Proof.
  intros Hflag Hunknown. unfold handle_client_message, dropped.
  rewrite Hflag. change (_pending (logger _ s)) with (_pending s).
  rewrite Hunknown. unfold logger. by rewrite emit_emit.
Qed.

Lemma unknown_event_dropped client message s :
  listener_flag message = true →
  _listeners s !! correlation_id message = None →
  dropped message (LogUnknownEvent message) s
          (handle_client_message client message s).
Proof.
  intros Hflag Hunknown. unfold handle_client_message, dropped.
  rewrite Hflag. change (_listeners (logger _ s)) with (_listeners s).
  rewrite Hunknown. unfold logger. by rewrite emit_emit.
Qed.

(** A response message pops its correlation id. *)
Lemma response_pops client message s i :
  listener_flag message = false →
  _pending s !! correlation_id message = Some i →
  _pending (handle_client_message client message s) =
  delete (correlation_id message) (_pending s).
Proof.
  intros Hflag Hknown. unfold handle_client_message.
  rewrite Hflag. change (_pending (logger _ s)) with (_pending s).
  rewrite Hknown. destruct (_ =? _).
  - by destruct (handle_exception_tables client i (create_exception client message)
       (set_pending (logger (LogReceived message) s)
          (delete (correlation_id message) (_pending s)))) as [-> _].
  - by destruct (Invocation_set_response_frame i message
       (set_pending (logger (LogReceived message) s)
          (delete (correlation_id message) (_pending s)))) as [-> _].
Qed.

(** C6: a non-event message whose correlation id is not in the pending
    table, and an event message whose correlation id is not in the listeners
    table, are logged and discarded: only the log changes, no future is
    resolved and nothing is raised; and a second non-event message with the
    correlation id of a response that was already handled is dropped in the
    same way. *)
Theorem C6_unknown_correlation_id (client : Client) (message : ClientMessage)
    (s : State) :
  (listener_flag message = false →
   _pending s !! correlation_id message = None →
   dropped message (LogUnknownMessage message) s
           (handle_client_message client message s)) ∧
  (listener_flag message = true →
   _listeners s !! correlation_id message = None →
   dropped message (LogUnknownEvent message) s
           (handle_client_message client message s)) ∧
  (∀ second,
     listener_flag message = false →
     is_Some (_pending s !! correlation_id message) →
     listener_flag second = false →
     correlation_id second = correlation_id message →
     let s1 := handle_client_message client message s in
     dropped second (LogUnknownMessage second) s1
             (handle_client_message client second s1)).
Proof.
  split; [apply unknown_response_dropped|].
  split; [apply unknown_event_dropped|].
  intros second Hflag [i Hknown] Hflag2 Hsame s1.
  apply unknown_response_dropped; [done|].
  subst s1. rewrite (response_pops _ _ _ i Hflag Hknown), Hsame.
  apply lookup_delete_eq.
Qed.

(** C6 at work: the response with correlation id 2 arrives twice. *)
Lemma C6_unknown_correlation_id_witness :
  let s1 := handle_client_message Fixture.client (Fixture.response_msg 2)
                                  Fixture.on_partition in
  dropped (Fixture.response_msg 2) (LogUnknownMessage (Fixture.response_msg 2)) s1
          (handle_client_message Fixture.client (Fixture.response_msg 2) s1).
Proof.
  refine (proj2 (proj2 (C6_unknown_correlation_id Fixture.client
                          (Fixture.response_msg 2) Fixture.on_partition))
                (Fixture.response_msg 2) _ _ _ _).
  - reflexivity.
  - exists 0%nat. reflexivity.
  - reflexivity.
  - reflexivity.
Defined.

(** ** Event messages *)

Lemma handler_calls_app i t1 t2 :
  handler_calls i (t1 ++ t2) = (handler_calls i t1 + handler_calls i t2)%nat.
Proof.
  induction t1 as [|e t1 IH]; [done|].
  destruct e as [r|name arg|j m]; simpl; [done..|].
  case_decide; simpl; by rewrite IH.
Qed.

Section event.
Context (client : Client) (s : State) (i : nat) (self : Invocation)
        (handler : EventHandler) (message : ClientMessage).
Hypothesis Hflag : listener_flag message = true.
Hypothesis Hknown : _listeners s !! correlation_id message = Some i.
Hypothesis Hself : invocations s !! i = Some self.
Hypothesis Hhandler : event_handler self = Some handler.

Lemma event_message_unfold :
  handle_client_message client message s =
  emit ([Log (LogReceived message); HandlerCalled i message] ++
        match handler message with
        | Returns _ => []
        | Raises _ => [Log (LogEventError message)]
        end) s.
Proof.
  unfold handle_client_message. rewrite Hflag.
  change (_listeners (logger _ s)) with (_listeners s). rewrite Hknown.
  unfold handle_event.
  change (invocations (logger _ s)) with (invocations s).
  rewrite Hself, Hhandler. unfold logger.
  destruct (handler message); by rewrite !emit_emit.
Qed.

Lemma event_message_calls_once :
  handler_calls i (effects (handle_client_message client message s)) =
  S (handler_calls i (effects s)).
Proof.
  rewrite event_message_unfold. unfold emit; cbn [effects].
  rewrite handler_calls_app. cbn [app handler_calls].
  case_decide; [|done].
  destruct (handler message); simpl; lia.
Qed.
End event.

Lemma emit_frame t s :
  invocations (emit t s) = invocations s ∧
  _pending (emit t s) = _pending s ∧
  _listeners (emit t s) = _listeners s ∧
  timers (emit t s) = timers s ∧
  sent (emit t s) = sent s.
Proof. done. Qed.

Lemma deliver_events client c i self handler messages : ∀ s,
  _listeners s !! c = Some i →
  invocations s !! i = Some self →
  event_handler self = Some handler →
  Forall (fun m => listener_flag m = true ∧ correlation_id m = c) messages →
  _listeners (deliver client messages s) = _listeners s ∧
  invocations (deliver client messages s) = invocations s ∧
  handler_calls i (effects (deliver client messages s)) =
    (handler_calls i (effects s) + length messages)%nat.
Proof.
  induction messages as [|m rest IH]; intros s Hknown Hself Hhandler Hall.
  - simpl. repeat split; lia.
  - apply Forall_cons in Hall as [[Hflag Hcid] Hrest]. subst c.
    unfold deliver in *. cbn [foldl].
    pose proof (event_message_unfold client s i self handler m
                  Hflag Hknown Hself Hhandler) as Hstep.
    pose proof (event_message_calls_once client s i self handler m
                  Hflag Hknown Hself Hhandler) as Hcalls.
    set (s1 := handle_client_message client m s) in *.
    assert (Hl : _listeners s1 = _listeners s) by (by rewrite Hstep).
    assert (Hh : invocations s1 = invocations s) by (by rewrite Hstep).
    destruct (IH s1) as (-> & -> & ->); [by rewrite Hl|by rewrite Hh|done|done|].
    rewrite Hcalls. cbn [length]. repeat split; [done|done|lia].
Qed.

(** C8: for an invocation with an event handler registered in the listeners
    table, each event-flagged message with its correlation id calls the
    handler exactly once and changes nothing but the trace: the invocation
    stays in the listeners table under that id, its future is not resolved,
    nothing is removed; a handler that raises is logged, with the same
    outcome.  Delivering any number of such messages in sequence calls the
    handler once per message and leaves the invocation registered. *)
Theorem C8_listener_stays_registered (client : Client) (s : State) (c : Z) (i : nat)
    (self : Invocation) (handler : EventHandler) :
  _listeners s !! c = Some i →
  invocations s !! i = Some self →
  event_handler self = Some handler →
  (∀ message,
     listener_flag message = true → correlation_id message = c →
     let s' := handle_client_message client message s in
     s' = emit ([Log (LogReceived message); HandlerCalled i message] ++
                match handler message with
                | Returns _ => []
                | Raises _ => [Log (LogEventError message)]
                end) s ∧
     handler_calls i (effects s') = S (handler_calls i (effects s)) ∧
     _listeners s' !! c = Some i ∧
     _listeners s' = _listeners s ∧
     invocations s' = invocations s ∧
     result_of s' i = result_of s i) ∧
  (∀ messages,
     Forall (fun m => listener_flag m = true ∧ correlation_id m = c) messages →
     let s' := deliver client messages s in
     handler_calls i (effects s') = (handler_calls i (effects s) + length messages)%nat ∧
     _listeners s' !! c = Some i ∧
     invocations s' = invocations s).
Proof.
  intros Hknown Hself Hhandler. split.
  - intros message Hflag Hcid s'. subst c.
    pose proof (event_message_unfold client s i self handler message
                  Hflag Hknown Hself Hhandler) as Hstep.
    split; [done|]. split; [by apply (event_message_calls_once _ _ _ self handler)|].
    subst s'. rewrite Hstep. unfold result_of. by rewrite !(proj1 (emit_frame _ _)).
  - intros messages Hall s'.
    destruct (deliver_events client c i self handler messages s
                Hknown Hself Hhandler Hall) as (Hl & Hh & Hcalls).
    subst s'. by rewrite Hl, Hh, Hcalls.
Qed.

(** C8 at work: three event messages for the acknowledged listener. *)
Lemma C8_listener_stays_registered_witness :
  let s' := deliver Fixture.client
                    [Fixture.event_msg 3; Fixture.event_msg 3; Fixture.event_msg 3]
                    Fixture.acknowledged in
  handler_calls 1 (effects s') = 3%nat ∧
  _listeners s' !! 3 = Some 1%nat ∧
  invocations s' = invocations Fixture.acknowledged.
Proof.
  refine (proj2 (C8_listener_stays_registered Fixture.client Fixture.acknowledged 3 1
                   (mkInvocation 1121 None (Some 7%nat) (-1)
                      (mkMessage 3 (-1) false 1 false "map.get")
                      (Some Fixture.quiet_handler) _ (Some 1%nat))
                   Fixture.quiet_handler _ _ _)
                [Fixture.event_msg 3; Fixture.event_msg 3; Fixture.event_msg 3] _).
  - reflexivity.
  - reflexivity.
  - reflexivity.
  - repeat constructor.
Defined.

(** ** Connection teardown *)

Lemma Invocation_set_exception_connections i e s :
  connection <$> invocations (Invocation_set_exception i e s) =
  connection <$> invocations s.
Proof.
  destruct (invocations s !! i) as [self|] eqn:Hself.
  - rewrite (Invocation_set_exception_heap i e s self Hself).
    rewrite list_fmap_insert. apply list_insert_id.
    by rewrite list_lookup_fmap, Hself.
  - unfold Invocation_set_exception. by rewrite Hself.
Qed.

Lemma bound_to_heap s s' conn i :
  connection <$> invocations s' = connection <$> invocations s →
  bound_to s' conn i = bound_to s conn i.
Proof.
  intros Heq. apply (f_equal (fun l => l !! i)) in Heq.
  rewrite !list_lookup_fmap in Heq. unfold bound_to.
  destruct (invocations s' !! i), (invocations s !! i); simpl in Heq;
    try done. by inversion Heq as [Hc]; rewrite Hc.
Qed.

Lemma bound_to_Some s conn i :
  bound_to s conn i = true →
  ∃ self, invocations s !! i = Some self ∧ connection self = Some conn.
Proof.
  unfold bound_to. destruct (invocations s !! i) as [self|]; [|done].
  intros H%bool_decide_eq_true. eauto.
Qed.

Section first_loop.
Context (conn : Connection).

Lemma fail_if_bound_frame s e :
  _pending (fail_if_bound conn s e) = _pending s ∧
  _listeners (fail_if_bound conn s e) = _listeners s ∧
  action <$> timers (fail_if_bound conn s e) = action <$> timers s ∧
  connection <$> invocations (fail_if_bound conn s e) =
    connection <$> invocations s.
Proof.
  unfold fail_if_bound. destruct (bound_to s conn e.2); [|done].
  destruct (Invocation_set_exception_frame e.2 connection_closed_error s)
    as (-> & -> & _ & ->).
  by rewrite Invocation_set_exception_connections.
Qed.

Lemma fail_if_bound_closes s e :
  bound_to s conn e.2 = true → closed_at (fail_if_bound conn s e) e.2.
Proof.
  intros Hbound. unfold fail_if_bound. rewrite Hbound.
  destruct (bound_to_Some _ _ _ Hbound) as (self & Hself & _).
  destruct (Invocation_set_exception_result e.2 connection_closed_error s self Hself)
    as (self' & Hself' & _ & Hresult).
  unfold closed_at, result_of. by rewrite Hself'.
Qed.

Lemma fail_if_bound_other s e i :
  (e.2 ≠ i ∨ bound_to s conn e.2 = false) →
  invocations (fail_if_bound conn s e) !! i = invocations s !! i.
Proof.
  intros Hother. unfold fail_if_bound.
  destruct (bound_to s conn e.2) eqn:Hbound; [|done].
  destruct Hother as [Hne|?]; [|done].
  destruct (bound_to_Some _ _ _ Hbound) as (self & Hself & _).
  by apply (Invocation_set_exception_other _ _ _ self).
Qed.

Lemma fail_if_bound_keeps_closed s e i :
  closed_at s i → closed_at (fail_if_bound conn s e) i.
Proof.
  intros Hclosed. destruct (decide (e.2 = i)) as [<-|Hne].
  - destruct (bound_to s conn e.2) eqn:Hbound.
    + by apply fail_if_bound_closes.
    + unfold fail_if_bound. by rewrite Hbound.
  - unfold closed_at, result_of in *.
    rewrite fail_if_bound_other; [done|by left].
Qed.

Lemma first_loop_frame entries : ∀ s,
  _pending (foldl (fail_if_bound conn) s entries) = _pending s ∧
  _listeners (foldl (fail_if_bound conn) s entries) = _listeners s ∧
  action <$> timers (foldl (fail_if_bound conn) s entries) = action <$> timers s ∧
  connection <$> invocations (foldl (fail_if_bound conn) s entries) =
    connection <$> invocations s.
Proof.
  induction entries as [|e rest IH]; intros s; [done|]. cbn [foldl].
  destruct (IH (fail_if_bound conn s e)) as (-> & -> & -> & ->).
  apply fail_if_bound_frame.
Qed.

Lemma first_loop_keeps_closed entries : ∀ s i,
  closed_at s i → closed_at (foldl (fail_if_bound conn) s entries) i.
Proof.
  induction entries as [|e rest IH]; intros s i Hclosed; [done|]. cbn [foldl].
  by apply IH, fail_if_bound_keeps_closed.
Qed.

Lemma first_loop_closes entries : ∀ s cid i,
  (cid, i) ∈ entries →
  bound_to s conn i = true →
  closed_at (foldl (fail_if_bound conn) s entries) i.
Proof.
  induction entries as [|e rest IH]; intros s cid i Hin Hbound.
  - by apply elem_of_nil in Hin.
  - cbn [foldl]. apply elem_of_cons in Hin as [<-|Hin].
    + apply first_loop_keeps_closed. by apply (fail_if_bound_closes s (cid, i)).
    + apply (IH _ cid); [done|].
      rewrite (bound_to_heap s); [done|]. apply fail_if_bound_frame.
Qed.

Lemma first_loop_other entries : ∀ s i,
  (∀ cid, (cid, i) ∈ entries → bound_to s conn i = false) →
  invocations (foldl (fail_if_bound conn) s entries) !! i = invocations s !! i.
Proof.
  induction entries as [|e rest IH]; intros s i Hother; [done|]. cbn [foldl].
  rewrite IH.
  - apply fail_if_bound_other. destruct (decide (e.2 = i)) as [<-|?]; [|by left].
    right. apply (Hother e.1). destruct e. apply elem_of_cons. by left.
  - intros cid Hin. rewrite (bound_to_heap s); [|apply fail_if_bound_frame].
    apply (Hother cid). apply elem_of_cons. by right.
Qed.
End first_loop.

Section second_loop.
Context (conn : Connection).

Lemma pop_if_bound_frame s e :
  invocations (pop_if_bound conn s e) = invocations s ∧
  _pending (pop_if_bound conn s e) = _pending s ∧
  timers (pop_if_bound conn s e) = timers s.
Proof. unfold pop_if_bound. by destruct (bound_to s conn e.2). Qed.

Lemma second_loop_frame entries : ∀ s,
  invocations (foldl (pop_if_bound conn) s entries) = invocations s ∧
  _pending (foldl (pop_if_bound conn) s entries) = _pending s ∧
  timers (foldl (pop_if_bound conn) s entries) = timers s.
Proof.
  induction entries as [|e rest IH]; intros s; [done|]. cbn [foldl].
  destruct (IH (pop_if_bound conn s e)) as (-> & -> & ->).
  apply pop_if_bound_frame.
Qed.

Lemma pop_if_bound_bound_to s e i :
  bound_to (pop_if_bound conn s e) conn i = bound_to s conn i.
Proof.
  apply bound_to_heap. by destruct (pop_if_bound_frame s e) as (-> & _).
Qed.

Lemma second_loop_keeps_absent entries : ∀ s cid,
  _listeners s !! cid = None →
  _listeners (foldl (pop_if_bound conn) s entries) !! cid = None.
Proof.
  induction entries as [|e rest IH]; intros s cid Habsent; [done|]. cbn [foldl].
  apply IH. unfold pop_if_bound. destruct (bound_to s conn e.2); [|done].
  cbn [_listeners set_listeners].
  destruct (decide (e.1 = cid)) as [->|?].
  - apply lookup_delete_eq.
  - by rewrite lookup_delete_ne.
Qed.

Lemma second_loop_pops entries : ∀ s cid i,
  (cid, i) ∈ entries →
  bound_to s conn i = true →
  _listeners (foldl (pop_if_bound conn) s entries) !! cid = None.
Proof.
  induction entries as [|e rest IH]; intros s cid i Hin Hbound.
  - by apply elem_of_nil in Hin.
  - cbn [foldl]. apply elem_of_cons in Hin as [<-|Hin].
    + apply second_loop_keeps_absent. unfold pop_if_bound. cbn [fst snd].
      rewrite Hbound. cbn [_listeners set_listeners]. apply lookup_delete_eq.
    + apply (IH _ cid i); [done|]. by rewrite pop_if_bound_bound_to.
Qed.

Lemma second_loop_keeps entries : ∀ s cid,
  (∀ i, (cid, i) ∈ entries → bound_to s conn i = false) →
  _listeners (foldl (pop_if_bound conn) s entries) !! cid = _listeners s !! cid.
Proof.
  induction entries as [|e rest IH]; intros s cid Hkeep; [done|]. cbn [foldl].
  rewrite IH.
  - unfold pop_if_bound. destruct (bound_to s conn e.2) eqn:Hbound; [|done].
    cbn [_listeners set_listeners]. apply lookup_delete_ne.
    intros <-. rewrite (Hkeep e.2) in Hbound; [done|].
    destruct e. apply elem_of_cons. by left.
  - intros i Hin. rewrite pop_if_bound_bound_to.
    apply Hkeep. apply elem_of_cons. by right.
Qed.
End second_loop.

Lemma connection_closed_pending conn s :
  _pending (connection_closed conn s) = _pending s.
Proof.
  unfold connection_closed.
  destruct (second_loop_frame conn
              (map_to_list (_listeners (foldl (fail_if_bound conn) s
                                              (map_to_list (_pending s)))))
              (foldl (fail_if_bound conn) s (map_to_list (_pending s))))
    as (_ & -> & _).
  by destruct (first_loop_frame conn (map_to_list (_pending s)) s) as (-> & _).
Qed.

Lemma connection_closed_heap conn s :
  invocations (connection_closed conn s) =
  invocations (foldl (fail_if_bound conn) s (map_to_list (_pending s))).
Proof. unfold connection_closed. apply second_loop_frame. Qed.

Lemma connection_closed_listeners conn s cid :
  _listeners (connection_closed conn s) !! cid =
  match _listeners s !! cid with
  | Some i => if bound_to s conn i then None else Some i
  | None => None
  end.
Proof.
  unfold connection_closed.
  set (mid := foldl (fail_if_bound conn) s (map_to_list (_pending s))).
  destruct (first_loop_frame conn (map_to_list (_pending s)) s)
    as (_ & Hl & _ & Hconns). fold mid in Hl, Hconns.
  rewrite <- Hl.
  destruct (_listeners mid !! cid) as [i|] eqn:Hcid.
  - rewrite <- (bound_to_heap s mid conn i Hconns).
    destruct (bound_to mid conn i) eqn:Hbound.
    + apply (second_loop_pops conn _ mid cid i); [|done].
      by apply elem_of_map_to_list.
    + rewrite second_loop_keeps; [done|].
      intros j Hin%elem_of_map_to_list. congruence.
  - by apply second_loop_keeps_absent.
Qed.

Lemma connection_closed_closes conn s cid i :
  _pending s !! cid = Some i → bound_to s conn i = true →
  closed_at (connection_closed conn s) i.
Proof.
  intros Hpending Hbound. unfold closed_at, result_of.
  rewrite connection_closed_heap.
  apply (first_loop_closes conn _ s cid i); [|done].
  by apply elem_of_map_to_list.
Qed.

(** C9, as the claim states it, fails: a listener invocation bound to the
    closed connection that is still in the pending table is removed from the
    listeners table and its future is resolved, with the connection-closed
    error. *)
Lemma C9_pending_listener_is_resolved :
  let s := Fixture.two_on_connection in
  let s' := connection_closed 7%nat s in
  _listeners s !! 3 = Some 1%nat ∧
  bound_to s 7%nat 1 = true ∧
  result_of s 1 = None ∧
  _listeners s' !! 3 = None ∧
  result_of s' 1 = Some (Raises connection_closed_error) ∧
  result_of s' 1 ≠ result_of s 1.
Proof. repeat split; try reflexivity. vm_compute. discriminate. Qed.

(** C9 (amended): connection_closed(connection) resolves the future of every
    pending invocation whose bound connection equals the closed connection
    with a connection-closed error, scheduling no retry, and removes from the
    listeners table exactly the listener invocations whose bound connection
    equals the closed connection; an invocation that is not in the pending
    table under a bound connection equal to the closed one, so in particular
    a listener invocation that is no longer pending, is left as it was, its
    future not resolved. *)
Theorem C9_connection_closed (conn : Connection) (s : State) :
  let s' := connection_closed conn s in
  (∀ cid i, _pending s !! cid = Some i → bound_to s conn i = true →
            closed_at s' i) ∧
  action <$> timers s' = action <$> timers s ∧
  (∀ cid, _listeners s' !! cid =
          match _listeners s !! cid with
          | Some i => if bound_to s conn i then None else Some i
          | None => None
          end) ∧
  (∀ i, (∀ cid, _pending s !! cid = Some i → bound_to s conn i = false) →
        invocations s' !! i = invocations s !! i).
Proof.
  intros s'. subst s'. repeat split.
  - apply connection_closed_closes.
  - unfold connection_closed.
    destruct (second_loop_frame conn
                (map_to_list (_listeners (foldl (fail_if_bound conn) s
                                                (map_to_list (_pending s)))))
                (foldl (fail_if_bound conn) s (map_to_list (_pending s))))
      as (_ & _ & ->).
    apply first_loop_frame.
  - apply connection_closed_listeners.
  - intros i Hother. rewrite connection_closed_heap.
    apply first_loop_other. intros cid Hin%elem_of_map_to_list. by apply (Hother cid).
Qed.

(** C10: connection_closed never removes entries from the pending table: the
    table is the same afterwards, so the correlation id of every invocation it
    failed still maps to that invocation, and it is a later incoming response
    with that correlation id that removes the entry. *)
Theorem C10_pending_unchanged (client : Client) (conn : Connection) (s : State) :
  let s' := connection_closed conn s in
  _pending s' = _pending s ∧
  (∀ cid i, _pending s !! cid = Some i → bound_to s conn i = true →
            closed_at s' i ∧ _pending s' !! cid = Some i) ∧
  (∀ message i,
     listener_flag message = false →
     _pending s !! correlation_id message = Some i →
     _pending (handle_client_message client message s') =
       delete (correlation_id message) (_pending s)).
Proof.
  intros s'. subst s'. split; [apply connection_closed_pending|]. split.
  - intros cid i Hpending Hbound. split.
    + by apply (connection_closed_closes conn s cid i).
    + by rewrite connection_closed_pending.
  - intros message i Hflag Hpending.
    rewrite (response_pops client message _ i Hflag).
    + by rewrite connection_closed_pending.
    + by rewrite connection_closed_pending.
Qed.

(** C9 at work: the plain invocation pending on connection 7 is failed when
    the connection closes. *)
Lemma C9_connection_closed_witness :
  closed_at (connection_closed 7%nat Fixture.two_on_connection) 0.
Proof.
  exact (proj1 (C9_connection_closed 7%nat Fixture.two_on_connection)
               2 0%nat eq_refl eq_refl).
Defined.

(** C10 at work: both entries are still in the pending table after the
    connection closed. *)
Lemma C10_pending_unchanged_witness :
  _pending (connection_closed 7%nat Fixture.two_on_connection) =
  _pending Fixture.two_on_connection.
Proof.
  exact (proj1 (C10_pending_unchanged Fixture.client 7%nat Fixture.two_on_connection)).
Defined.

(** * The model on concrete runs *)

Example routes_to_partition_owner :
  sent Fixture.on_partition = [(13%nat, mkMessage 2 3 false 1 false "map.get")].
Proof. reflexivity. Qed.

Example routes_to_explicit_address :
  sent (invoke_on_target Fixture.client Fixture.request_msg
          (mkAddress "explicit" 9) None new_InvocationService).2
  = [(9%nat, mkMessage 2 (-1) false 1 false "map.get")].
Proof. reflexivity. Qed.

Example routes_to_balanced_address :
  sent (invoke_on_random_target Fixture.client Fixture.request_msg None
          new_InvocationService).2
  = [(20%nat, mkMessage 2 (-1) false 1 false "map.get")].
Proof. reflexivity. Qed.

Example response_resolves_then_second_is_dropped :
  let s1 := handle_client_message Fixture.client (Fixture.response_msg 2)
                                  Fixture.on_partition in
  let s2 := handle_client_message Fixture.client (Fixture.response_msg 2) s1 in
  result_of s1 0 = Some (Returns (PyMessage (Fixture.response_msg 2))) ∧
  invocations s2 = invocations s1 ∧
  _pending s2 = ∅.
Proof. repeat split; reflexivity. Qed.

Example exception_after_result_wins :
  result (apply_calls new_Future
            [call_set_result (PyInt 1); call_set_exception (TimeoutError "late")])
  = Some (Raises (TimeoutError "late")).
Proof. reflexivity. Qed.

Example result_after_exception_is_hidden :
  result (apply_calls new_Future
            [call_set_exception (TimeoutError "late"); call_set_result (PyInt 1)])
  = Some (Raises (TimeoutError "late")).
Proof. reflexivity. Qed.

Example timeout_then_late_failure_overwrites :
  let s := on_timeout 0 Fixture.late_on_partition in
  result_of s 0 = Some (Raises (TimeoutError "Request timed out after 120 seconds.")) ∧
  result_of (handle_exception Fixture.late_client 0 (IOError "reset") s) 0
  = Some (Raises (IOError "reset")).
Proof. split; reflexivity. Qed.

Example acknowledged_listener_removed_unresolved :
  let s := Fixture.acknowledged in
  let s' := connection_closed 7%nat s in
  _listeners s' = ∅ ∧
  invocations s' !! 1%nat = invocations s !! 1%nat ∧
  closed_at s' 0.
Proof. repeat split; reflexivity. Qed.

(** * Further properties of Future *)

Lemma calls_in_app t1 t2 : calls_in (t1 ++ t2) = calls_in t1 ++ calls_in t2.
Proof.
  induction t1 as [|e t1 IH]; [done|].
  destruct e as [r|name arg|j m]; simpl; by rewrite ?IH.
Qed.

Lemma callback_errors_app t1 t2 :
  callback_errors (t1 ++ t2) = callback_errors t1 ++ callback_errors t2.
Proof.
  induction t1 as [|e t1 IH]; [done|].
  destruct e as [[]|name arg|j m]; simpl; by rewrite ?IH.
Qed.

(** Running the loop over client callbacks only. *)
Lemma invoke_client_callbacks view cs :
  (_invoke_callbacks view (client_callbacks cs)).1 = client_callbacks cs ∧
  calls_in (_invoke_callbacks view (client_callbacks cs)).2 =
    map (fun c => (c.1, view)) cs ∧
  callback_errors (_invoke_callbacks view (client_callbacks cs)).2 = raised_by view cs.
Proof.
  unfold _invoke_callbacks.
  induction cs as [|[name body] cs IH]; [done|].
  cbn [client_callbacks map for_each_callback _invoke_cb invoke_cb_with fst snd].
  fold (client_callbacks cs).
  destruct (for_each_callback (_invoke_cb view) (client_callbacks cs)) as [cbs' t].
  cbn [fst snd] in *. destruct IH as (-> & Hcalls & Herrors).
  split; [done|].
  unfold raised_by in *. cbn [omap list_omap fst snd calls_in app].
  destruct (body view) as [v|e]; cbn [app calls_in callback_errors];
    rewrite Hcalls, Herrors; done.
Qed.

Lemma callbacks_isolated_helper r exc ev cs v :
  calls_in (set_result (mkFuture r exc ev (client_callbacks cs)) v).2 =
  map (fun c => (c.1, mkView v exc true)) cs.
Proof.
  rewrite set_result_unfold. cbn [_result _exception _callbacks].
  destruct (invoke_client_callbacks (mkView v exc true) cs) as (_ & H2 & _).
  destruct (_invoke_callbacks _ _) as [cbs' t]. by cbn [fst snd] in *.
Qed.

(** The loop over any list of callables: each is called once, in order, and
    what one of them does does not depend on the others. *)
Lemma for_each_callback_each {F : Type} (invoke : callable F → callable F * trace)
    (cbs : list (callable F)) :
  for_each_callback invoke cbs =
  ((fun cb => (invoke cb).1) <$> cbs, mjoin ((fun cb => (invoke cb).2) <$> cbs)).
Proof.
  induction cbs as [|cb rest IH]; [done|]. simpl.
  destruct (invoke cb) as [cb' t1].
  destruct (for_each_callback invoke rest) as [rest' t2].
  by injection IH as -> ->.
Qed.

Lemma calls_in_join (ts : list trace) : calls_in (mjoin ts) = mjoin (calls_in <$> ts).
Proof.
  induction ts as [|t ts IH]; [done|].
  change (mjoin (t :: ts)) with (t ++ mjoin ts).
  by rewrite calls_in_app, IH.
Qed.

Lemma invoke_cb_client view name body :
  _invoke_cb view (client_callback name body) =
  (client_callback name body,
   CallbackCalled name view ::
   match body view with
   | Returns _ => []
   | Raises x => [Log (LogCallbackException x)]
   end).
Proof. reflexivity. Qed.

Lemma invoke_cb_continuation_trace view f fut :
  (_invoke_cb view (continuation f fut)).2 =
  (match f view with
   | Returns x => set_result fut x
   | Raises x => set_exception fut x
   end).2.
Proof.
  unfold _invoke_cb, invoke_cb_with.
  destruct (f view) as [x|x].
  - by destruct (set_result fut x).
  - by destruct (set_exception fut x).
Qed.

Lemma invoke_cb_continuation_future view f fut :
  (_invoke_cb view (continuation f fut)).1 =
  continuation f (match f view with
                  | Returns x => set_result fut x
                  | Raises x => set_exception fut x
                  end).1.
Proof.
  unfold _invoke_cb, invoke_cb_with.
  destruct (f view) as [x|x].
  - by destruct (set_result fut x).
  - by destruct (set_exception fut x).
Qed.

Lemma calls_of_invoke_cb view cb : calls_in (_invoke_cb view cb).2 = calls_of view cb.
Proof.
  destruct cb as [f fut|name body].
  - by rewrite invoke_cb_continuation_trace.
  - rewrite invoke_cb_client. cbn [snd calls_in calls_of].
    by destruct (body view).
Qed.

(** What the loop of [_invoke_callbacks] leaves, for any callables. *)
Lemma invoke_callbacks_each view (cbs : list (callable Future)) :
  (_invoke_callbacks view cbs).1 = (fun cb => (_invoke_cb view cb).1) <$> cbs ∧
  (_invoke_callbacks view cbs).2 = mjoin ((fun cb => (_invoke_cb view cb).2) <$> cbs) ∧
  calls_in (_invoke_callbacks view cbs).2 = mjoin (calls_of view <$> cbs) ∧
  (∀ k name body, cbs !! k = Some (client_callback name body) →
     (_invoke_callbacks view cbs).1 !! k = Some (client_callback name body)) ∧
  (∀ k f fut, cbs !! k = Some (continuation f fut) →
     (_invoke_callbacks view cbs).1 !! k =
       Some (continuation f (match f view with
                             | Returns x => set_result fut x
                             | Raises x => set_exception fut x
                             end).1)).
Proof.
  unfold _invoke_callbacks. rewrite for_each_callback_each. cbn [fst snd].
  split_and!; try done.
  - rewrite calls_in_join, <- list_fmap_compose. f_equal.
    apply list_fmap_ext. intros k cb _. apply calls_of_invoke_cb.
  - intros k name body Hk. by rewrite list_lookup_fmap, Hk.
  - intros k f fut Hk. rewrite list_lookup_fmap, Hk. cbn [fmap option_fmap option_map].
    by rewrite invoke_cb_continuation_future.
Qed.

(** X1: when a future is resolved, by set_result or by set_exception, every
    registered callback, whether a callable given to add_done_callback or a
    closure made by continue_with, is called exactly once, in registration
    order, with the future as it is after the assignment; what each of them
    does does not depend on the others, so that after a callback that raised,
    which is logged, the remaining ones still run; the callbacks stay
    registered, a closure with the future it captured resolved. *)
Theorem callbacks_run_in_order_isolated (r : value) (exc : option exn) (ev : bool)
    (cbs : list (callable Future)) (cs : list (string * (FutureView → outcome)))
    (v : value) (e : exn) :
  let self := mkFuture r exc ev cbs in
  let plain := mkFuture r exc ev (client_callbacks cs) in
  let resolve (view : FutureView) (f : FutureView → outcome) (fut : Future) :=
    match f view with
    | Returns x => set_result fut x
    | Raises x => set_exception fut x
    end in
  let ran (view : FutureView) (after : Future * trace) : Prop :=
    _callbacks after.1 = (fun cb => (_invoke_cb view cb).1) <$> cbs ∧
    after.2 = mjoin ((fun cb => (_invoke_cb view cb).2) <$> cbs) ∧
    calls_in after.2 = mjoin (calls_of view <$> cbs) ∧
    (∀ k name body, cbs !! k = Some (client_callback name body) →
       _callbacks after.1 !! k = Some (client_callback name body)) ∧
    (∀ k f fut, cbs !! k = Some (continuation f fut) →
       continuation_future after.1 k = Some (resolve view f fut).1) in
  ran (mkView v exc true) (set_result self v) ∧
  ran (mkView r (Some e) true) (set_exception self e) ∧
  (∀ view name body,
     _invoke_cb view (client_callback name body) =
     (client_callback name body,
      CallbackCalled name view ::
      match body view with
      | Returns _ => []
      | Raises x => [Log (LogCallbackException x)]
      end)) ∧
  (∀ view f fut,
     _invoke_cb view (continuation f fut) =
     (continuation f (resolve view f fut).1, (resolve view f fut).2)) ∧
  (calls_in (set_result plain v).2 = map (fun c => (c.1, mkView v exc true)) cs ∧
   callback_errors (set_result plain v).2 = raised_by (mkView v exc true) cs ∧
   _callbacks (set_result plain v).1 = client_callbacks cs) ∧
  (calls_in (set_exception plain e).2 = map (fun c => (c.1, mkView r (Some e) true)) cs ∧
   callback_errors (set_exception plain e).2 = raised_by (mkView r (Some e) true) cs ∧
   _callbacks (set_exception plain e).1 = client_callbacks cs).
Proof.
  intros self plain resolve ran.
  assert (Hran : ∀ view res exc0,
            ran view (let '(cbs', t) := _invoke_callbacks view cbs in
                      (mkFuture res exc0 true cbs', t))).
  { intros view res exc0. subst ran. cbv beta.
    destruct (invoke_callbacks_each view cbs) as (H1 & H2 & H3 & H4 & H5).
    destruct (_invoke_callbacks view cbs) as [cbs' t]. cbn [fst snd _callbacks] in *.
    split_and!; try done.
    intros k f fut Hk. unfold continuation_future. cbn [_callbacks].
    by rewrite (H5 k f fut Hk). }
  split; [|split; [|split; [|split; [|split]]]].
  - subst self. rewrite set_result_unfold. apply Hran.
  - subst self. rewrite set_exception_unfold. apply Hran.
  - apply invoke_cb_client.
  - intros view f fut. subst resolve. cbv beta.
    rewrite (surjective_pairing (_invoke_cb view (continuation f fut))).
    by rewrite invoke_cb_continuation_future, invoke_cb_continuation_trace.
  - subst plain. rewrite set_result_unfold. cbn [_result _exception _callbacks].
    destruct (invoke_client_callbacks (mkView v exc true) cs) as (H1 & H2 & H3).
    destruct (_invoke_callbacks _ _) as [cbs' t]. by cbn [fst snd _callbacks] in *.
  - subst plain. rewrite set_exception_unfold. cbn [_result _exception _callbacks].
    destruct (invoke_client_callbacks (mkView r (Some e) true) cs) as (H1 & H2 & H3).
    destruct (_invoke_callbacks _ _) as [cbs' t]. by cbn [fst snd _callbacks] in *.
Qed.

Lemma for_each_callback_snoc_all {F : Type} (invoke : callable F → callable F * trace)
    (cbs : list (callable F)) (cb : callable F) :
  for_each_callback invoke (cbs ++ [cb]) =
  ((for_each_callback invoke cbs).1 ++ [(invoke cb).1],
   (for_each_callback invoke cbs).2 ++ (invoke cb).2).
Proof.
  induction cbs as [|c rest IH]; simpl.
  - destruct (invoke cb) as [cb' t1]. by rewrite app_nil_r.
  - destruct (invoke c) as [c' t1]. rewrite IH.
    destruct (for_each_callback invoke rest) as [l2 t3]. cbn [fst snd].
    by rewrite app_assoc.
Qed.

Lemma set_result_snoc r exc ev cbs cb v :
  (set_result (mkFuture r exc ev (cbs ++ [cb])) v).2 =
    (set_result (mkFuture r exc ev cbs) v).2 ++ (_invoke_cb (mkView v exc true) cb).2 ∧
  _callbacks (set_result (mkFuture r exc ev (cbs ++ [cb])) v).1 =
    _callbacks (set_result (mkFuture r exc ev cbs) v).1 ++
    [(_invoke_cb (mkView v exc true) cb).1].
Proof.
  rewrite !set_result_unfold. cbn [_result _exception _callbacks].
  unfold _invoke_callbacks. rewrite for_each_callback_snoc_all.
  by destruct (for_each_callback _ cbs).
Qed.

Lemma set_exception_snoc r exc ev cbs cb e :
  (set_exception (mkFuture r exc ev (cbs ++ [cb])) e).2 =
    (set_exception (mkFuture r exc ev cbs) e).2 ++
    (_invoke_cb (mkView r (Some e) true) cb).2 ∧
  _callbacks (set_exception (mkFuture r exc ev (cbs ++ [cb])) e).1 =
    _callbacks (set_exception (mkFuture r exc ev cbs) e).1 ++
    [(_invoke_cb (mkView r (Some e) true) cb).1].
Proof.
  rewrite !set_exception_unfold. cbn [_result _exception _callbacks].
  unfold _invoke_callbacks. rewrite for_each_callback_snoc_all.
  by destruct (for_each_callback _ cbs).
Qed.

(** X2: a callback registered on an unresolved future, whatever callbacks
    the future already has, is not called at registration; when the future
    is resolved, by set_result or by set_exception, it is called once, after
    everything the callbacks registered before it do.  A callback registered
    on a resolved future is called at once, alone, with the future as it is,
    and is appended to the registered callbacks.  For a callable given by
    the client that is one recorded call, and a logged error if it raises. *)
Theorem callback_registration (r : value) (exc : option exn)
    (cbs : list (callable Future)) (cb : callable Future) (name : string)
    (body : FutureView → outcome) (v : value) (e : exn) :
  let unresolved := mkFuture r exc false cbs in
  let resolved := mkFuture r exc true cbs in
  let later := (add_done_callback unresolved cb).1 in
  let client := client_callback name body in
  (add_done_callback unresolved cb = (mkFuture r exc false (cbs ++ [cb]), []) ∧
   (set_result later v).2 =
     (set_result unresolved v).2 ++ (_invoke_cb (mkView v exc true) cb).2 ∧
   _callbacks (set_result later v).1 =
     _callbacks (set_result unresolved v).1 ++ [(_invoke_cb (mkView v exc true) cb).1] ∧
   (set_exception later e).2 =
     (set_exception unresolved e).2 ++ (_invoke_cb (mkView r (Some e) true) cb).2 ∧
   _callbacks (set_exception later e).1 =
     _callbacks (set_exception unresolved e).1 ++
     [(_invoke_cb (mkView r (Some e) true) cb).1]) ∧
  add_done_callback resolved cb =
    (mkFuture r exc true (cbs ++ [(_invoke_cb (mkView r exc true) cb).1]),
     (_invoke_cb (mkView r exc true) cb).2) ∧
  (calls_in (set_result (add_done_callback unresolved client).1 v).2 =
     calls_in (set_result unresolved v).2 ++ [(name, mkView v exc true)] ∧
   calls_in (set_exception (add_done_callback unresolved client).1 e).2 =
     calls_in (set_exception unresolved e).2 ++ [(name, mkView r (Some e) true)] ∧
   calls_in (add_done_callback resolved client).2 = [(name, mkView r exc true)] ∧
   callback_errors (add_done_callback resolved client).2 =
     raised_by (mkView r exc true) [(name, body)] ∧
   _callbacks (add_done_callback resolved client).1 = cbs ++ [client]).
Proof.
  intros unresolved resolved later client.
  assert (Hresolved : ∀ cb0, add_done_callback resolved cb0 =
            (mkFuture r exc true (cbs ++ [(_invoke_cb (mkView r exc true) cb0).1]),
             (_invoke_cb (mkView r exc true) cb0).2)).
  { intros cb0. subst resolved. unfold add_done_callback, view_of.
    cbn [done _event _result _exception _callbacks].
    by destruct (_invoke_cb (mkView r exc true) cb0). }
  split_and!.
  - done.
  - apply set_result_snoc.
  - apply set_result_snoc.
  - apply set_exception_snoc.
  - apply set_exception_snoc.
  - apply Hresolved.
  - change (add_done_callback unresolved client).1
      with (mkFuture r exc false (cbs ++ [client])).
    rewrite (proj1 (set_result_snoc r exc false cbs client v)), calls_in_app.
    by rewrite calls_of_invoke_cb.
  - change (add_done_callback unresolved client).1
      with (mkFuture r exc false (cbs ++ [client])).
    rewrite (proj1 (set_exception_snoc r exc false cbs client e)), calls_in_app.
    by rewrite calls_of_invoke_cb.
  - rewrite Hresolved. cbn [snd]. by rewrite calls_of_invoke_cb.
  - rewrite Hresolved. subst client. rewrite invoke_cb_client.
    unfold raised_by. cbn [snd omap list_omap fst callback_errors].
    by destruct (body (mkView r exc true)).
  - rewrite Hresolved. subst client. by rewrite invoke_cb_client.
Qed.

(** ** Chains of continuations *)

Lemma invoke_cb_captured view f fut :
  (_invoke_cb view (continuation f fut)).1 =
  continuation f (match f view with
                  | Returns x => set_result fut x
                  | Raises e => set_exception fut e
                  end).1.
Proof.
  unfold _invoke_cb, invoke_cb_with.
  destruct (f view) as [x|e].
  - by destruct (set_result fut x).
  - by destruct (set_exception fut e).
Qed.

Lemma captured_after_set_result r exc ev cbs f fut v :
  continuation_future
    (set_result (mkFuture r exc ev (cbs ++ [continuation f fut])) v).1 (length cbs)
  = Some (match f (mkView v exc true) with
          | Returns x => set_result fut x
          | Raises e => set_exception fut e
          end).1.
Proof.
  rewrite set_result_unfold. cbn [_result _exception _callbacks].
  unfold _invoke_callbacks.
  pose proof (for_each_callback_last (_invoke_cb (mkView v exc true)) cbs
                (continuation f fut)) as Hlast.
  destruct (for_each_callback _ _) as [cbs' t].
  unfold continuation_future. cbn [fst _callbacks] in *.
  by rewrite Hlast, invoke_cb_captured.
Qed.

Lemma captured_after_set_exception r exc ev cbs f fut e :
  continuation_future
    (set_exception (mkFuture r exc ev (cbs ++ [continuation f fut])) e).1 (length cbs)
  = Some (match f (mkView r (Some e) true) with
          | Returns x => set_result fut x
          | Raises e' => set_exception fut e'
          end).1.
Proof.
  rewrite set_exception_unfold. cbn [_result _exception _callbacks].
  unfold _invoke_callbacks.
  pose proof (for_each_callback_last (_invoke_cb (mkView r (Some e) true)) cbs
                (continuation f fut)) as Hlast.
  destruct (for_each_callback _ _) as [cbs' t].
  unfold continuation_future. cbn [fst _callbacks] in *.
  by rewrite Hlast, invoke_cb_captured.
Qed.

Lemma continue_with_twice_unfold r exc cbs f g :
  continue_with_twice (mkFuture r exc false cbs) f g =
  mkFuture r exc false
    (cbs ++ [continuation f (mkFuture PyNone None false [continuation g new_Future])]).
Proof.
  unfold continue_with_twice. rewrite continue_with_unresolved.
  unfold on_continuation. cbn [_result _exception _event _callbacks].
  f_equal. rewrite <- (Nat.add_0_r (length cbs)). by rewrite alter_app_r.
Qed.

(** The first continuation, once resolved with the outcome [o] of [f], and
    the second one behind it. *)
Lemma second_continuation_resolved g (o : outcome) :
  let first := (match o with
                | Returns x =>
                    set_result (mkFuture PyNone None false [continuation g new_Future]) x
                | Raises e =>
                    set_exception (mkFuture PyNone None false [continuation g new_Future]) e
                end).1 in
  result first = Some o ∧
  continuation_result first 0 = Some (g (view_after o)).
Proof.
  destruct o as [x|e]; cbn zeta.
  - split.
    + destruct (set_result_fields (mkFuture PyNone None false [continuation g new_Future]) x)
        as (Hr & He & Hev).
      rewrite (result_of_fields _ Hev), He, Hr. done.
    + apply (continuation_after_set_result PyNone None false [] g x).
  - split.
    + destruct (set_exception_fields
                  (mkFuture PyNone None false [continuation g new_Future]) e)
        as (Hr & He & Hev).
      rewrite (result_of_fields _ Hev), He. done.
    + apply (continuation_after_set_exception PyNone None false [] g e).
Qed.

(** X3: in base.continue_with(f).continue_with(g) on an unresolved base
    future, resolving the base resolves both continuations: the first with
    what f does on the base, the second with what g does on the first
    continuation; so when both read their argument through result(), an
    error of the base, or one raised on the way, reaches the last future
    and the later functions are not applied. *)
Theorem continuations_chain (r : value) (cbs : list (callable Future))
    (f g : FutureView → outcome) (f' g' : value → outcome) (v : value) (e : exn) :
  let second_of (after : Future) :=
    match continuation_future after (length cbs) with
    | Some first => continuation_result first 0
    | None => None
    end in
  let base := mkFuture r None false cbs in
  let chained := continue_with_twice base f g in
  let through := continue_with_twice base (through_result f') (through_result g') in
  (continuation_result (set_result chained v).1 (length cbs)
     = Some (f (mkView v None true)) ∧
   second_of (set_result chained v).1
     = Some (g (view_after (f (mkView v None true))))) ∧
  (continuation_result (set_exception chained e).1 (length cbs)
     = Some (f (mkView r (Some e) true)) ∧
   second_of (set_exception chained e).1
     = Some (g (view_after (f (mkView r (Some e) true))))) ∧
  second_of (set_exception through e).1 = Some (Raises e) ∧
  second_of (set_result through v).1 =
    Some match f' v with
         | Returns x => g' x
         | Raises e' => Raises e'
         end.
Proof.
  intros second_of base chained through.
  assert (Hvalue : ∀ f0 g0,
    continuation_result (set_result (continue_with_twice base f0 g0) v).1 (length cbs)
      = Some (f0 (mkView v None true)) ∧
    second_of (set_result (continue_with_twice base f0 g0) v).1
      = Some (g0 (view_after (f0 (mkView v None true))))).
  { intros f0 g0. subst second_of base. cbv beta.
    rewrite continue_with_twice_unfold. unfold continuation_result at 1.
    rewrite captured_after_set_result.
    apply (second_continuation_resolved g0 (f0 (mkView v None true))). }
  assert (Herror : ∀ f0 g0,
    continuation_result (set_exception (continue_with_twice base f0 g0) e).1 (length cbs)
      = Some (f0 (mkView r (Some e) true)) ∧
    second_of (set_exception (continue_with_twice base f0 g0) e).1
      = Some (g0 (view_after (f0 (mkView r (Some e) true))))).
  { intros f0 g0. subst second_of base. cbv beta.
    rewrite continue_with_twice_unfold. unfold continuation_result at 1.
    rewrite captured_after_set_exception.
    apply (second_continuation_resolved g0 (f0 (mkView r (Some e) true))). }
  split; [apply Hvalue|]. split; [apply Herror|]. split.
  - subst through. by rewrite (proj2 (Herror _ _)).
  - subst through. rewrite (proj2 (Hvalue _ _)).
    unfold through_result at 2. cbn [view_exception view_result].
    by destruct (f' v).
Qed.

(** * Consistency of the registry over runs of the service *)

Section consistent.
Context (sh : list Shape) (p l : gmap Z nat) (n : Z)
        (a : list (TimerDue * TimerAction)).
Hypothesis Hwf : consistent sh p l n a.

Lemma consistent_delete_pending cid : consistent sh (delete cid p) l n a.
Proof.
  destruct Hwf as (Hp & Hl & Ht & Hr & Hh). split_and!; try done.
  intros c i Hc. apply (Hp c i). by apply lookup_delete_Some in Hc as [_ ?].
Qed.

Lemma consistent_fewer_listeners l' :
  (∀ cid i, l' !! cid = Some i → l !! cid = Some i) → consistent sh p l' n a.
Proof.
  intros Hsub. destruct Hwf as (Hp & Hl & Ht & Hr & Hh). split_and!; try done.
  intros c i Hc. by apply (Hl c i), Hsub.
Qed.

Lemma consistent_new_shape x :
  armed_with x = None → consistent (sh ++ [x]) p l n a.
Proof.
  intros Hx. destruct Hwf as (Hp & Hl & Ht & Hr & Hh). split_and!.
  - intros c i Hc. destruct (Hp c i Hc) as [? [y Hy]]. split; [done|].
    exists y. by apply lookup_app_l_Some.
  - intros c i Hc. destruct (Hl c i Hc) as [? (y & Hy & ?)]. split; [done|].
    exists y. split; [|done]. by apply lookup_app_l_Some.
  - intros h d i Hhi. destruct (Ht h d i Hhi) as (y & Hy & ?). exists y.
    split; [|done]. by apply lookup_app_l_Some.
  - intros h d i Hhi. destruct (Hr h d i Hhi) as (y & Hy & ?). exists y.
    split; [|done]. by apply lookup_app_l_Some.
  - intros i y h Hy Harmed. apply lookup_app_Some in Hy as [Hy|[_ Hy]].
    + by apply (Hh i y h).
    + apply list_lookup_singleton_Some in Hy as [_ <-]. congruence.
Qed.

Lemma consistent_reinvoke i x d0 :
  sh !! i = Some x → bound x = None → consistent sh p l n (a ++ [(d0, Reinvoke i)]).
Proof.
  intros Hx Hbound. destruct Hwf as (Hp & Hl & Ht & Hr & Hh). split_and!; try done.
  - intros h d j Hhj. apply lookup_app_Some in Hhj as [Hhj|[_ Hhj]].
    + by apply Ht.
    + by apply list_lookup_singleton_Some in Hhj as [_ ?].
  - intros h d j Hhj. apply lookup_app_Some in Hhj as [Hhj|[_ Hhj]].
    + by apply (Hr h d).
    + apply list_lookup_singleton_Some in Hhj as [_ [= _ <-]]. eauto.
  - intros j y h Hy Harmed. apply lookup_app_l_Some. by apply (Hh j y h).
Qed.

Lemma consistent_send i x :
  sh !! i = Some x →
  consistent (<[i := sent_shape a x]> sh) (<[n + 1 := i]> p)
             (if listens x then <[n + 1 := i]> l else l) (n + 1)
             (a ++ deadline_timer i x).
Proof.
  intros Hx. destruct Hwf as (Hp & Hl & Ht & Hr & Hh).
  assert (Hi : (i < length sh)%nat) by (by eapply lookup_lt_Some).
  assert (Hlive : ∀ j, is_Some (sh !! j) → is_Some (<[i := sent_shape a x]> sh !! j)).
  { intros j Hj. apply lookup_lt_is_Some. rewrite length_insert.
    by apply lookup_lt_is_Some. }
  assert (Hkeep : ∀ j y, sh !! j = Some y →
            ∃ y', <[i := sent_shape a x]> sh !! j = Some y' ∧
                  bound y' = bound y ∧ listens y' = listens y ∧
                  deadline y' = deadline y ∧ (j ≠ i → y' = y)).
  { intros j y Hy. destruct (decide (j = i)) as [->|Hne].
    - rewrite list_lookup_insert_eq by done. rewrite Hx in Hy. injection Hy as <-.
      by eexists.
    - rewrite list_lookup_insert_ne by done. exists y. by split_and!. }
  split_and!.
  - intros c j Hc. apply lookup_insert_Some in Hc as [[<- <-]|[_ Hc]].
    + split; [lia|]. apply Hlive. eauto.
    + destruct (Hp c j Hc). split; [lia|]. by apply Hlive.
  - intros c j Hc.
    assert (Hold : l !! c = Some j →
              c ≤ n + 1 ∧ ∃ y, <[i := sent_shape a x]> sh !! j = Some y ∧ listens y = true).
    { intros Hc'. destruct (Hl c j Hc') as [? (y & Hy & Hly)]. split; [lia|].
      destruct (Hkeep j y Hy) as (y' & ? & _ & ? & _). exists y'. split; congruence. }
    destruct (listens x) eqn:Hlistens; [|by apply Hold].
    apply lookup_insert_Some in Hc as [[<- <-]|[_ Hc]]; [|by apply Hold].
    split; [lia|]. exists (sent_shape a x). split; [by apply list_lookup_insert_eq|done].
  - intros h d j Hhj. apply lookup_app_Some in Hhj as [Hhj|[Hge Hhj]].
    + destruct (Ht h d j Hhj) as (y & Hy & Harmed & Hd).
      destruct (decide (j = i)) as [->|Hne].
      * rewrite Hx in Hy. injection Hy as <-.
        exists (sent_shape a x). split; [by apply list_lookup_insert_eq|].
        unfold sent_shape. cbn. by rewrite Harmed.
      * exists y. split; [|done]. by rewrite list_lookup_insert_ne.
    + unfold deadline_timer in Hhj. destruct (armed_with x) eqn:Harmed; [done|].
      apply list_lookup_singleton_Some in Hhj as [Hh0 [= <- <-]].
      exists (sent_shape a x). split; [by apply list_lookup_insert_eq|].
      unfold sent_shape. cbn. rewrite Harmed. split; [|done]. f_equal. lia.
  - intros h d j Hhj. apply lookup_app_Some in Hhj as [Hhj|[Hge Hhj]].
    + destruct (Hr h d j Hhj) as (y & Hy & Hbound).
      destruct (Hkeep j y Hy) as (y' & Hy' & Hb & _). exists y'. split; congruence.
    + unfold deadline_timer in Hhj. destruct (armed_with x); [done|].
      by apply list_lookup_singleton_Some in Hhj as [_ ?].
  - intros j y h Hy Harmed. destruct (decide (j = i)) as [->|Hne].
    + rewrite list_lookup_insert_eq in Hy by done. injection Hy as <-.
      unfold sent_shape in Harmed. cbn in Harmed. unfold deadline_timer.
      destruct (armed_with x) as [h0|] eqn:Hx0.
      * injection Harmed as <-. apply lookup_app_l_Some.
        by apply (Hh i x h0).
      * injection Harmed as <-. rewrite lookup_app_r by done.
        by rewrite Nat.sub_diag.
    + rewrite list_lookup_insert_ne in Hy by done.
      apply lookup_app_l_Some. by apply (Hh j y h).
Qed.
End consistent.

Lemma consistent_initial : consistent [] ∅ ∅ 1 [].
Proof. split_and!; intros; simplify_map_eq; done. Qed.

(** ** What each operation does to the registry *)

Lemma same_registry_refl s : same_registry s s.
Proof. done. Qed.

Lemma same_registry_trans s1 s2 s3 :
  same_registry s1 s2 → same_registry s2 s3 → same_registry s1 s3.
Proof.
  intros (H1 & H2 & H3 & H4 & H5) (K1 & K2 & K3 & K4 & K5).
  split_and!; congruence.
Qed.

Lemma well_formed_same_registry s s' :
  same_registry s s' → well_formed s → well_formed s'.
Proof. intros (H1 & H2 & H3 & H4 & H5). unfold well_formed. by rewrite H1, H2, H3, H4, H5. Qed.

Lemma timer_cancel_counter h s :
  _next_correlation_id (timer_cancel h s) = _next_correlation_id s.
Proof. unfold timer_cancel. by destruct (timers s !! h). Qed.

Lemma cancel_own_timer_counter self s :
  _next_correlation_id (cancel_own_timer self s) = _next_correlation_id s.
Proof. unfold cancel_own_timer. destruct (timer self); [apply timer_cancel_counter|done]. Qed.

Lemma timer_cancel_schedule h s : schedule (timer_cancel h s) = schedule s.
Proof.
  unfold timer_cancel, schedule. destruct (timers s !! h) as [t|] eqn:Ht; [|done].
  state_simpl. rewrite list_fmap_insert. apply list_insert_id.
  by rewrite list_lookup_fmap, Ht.
Qed.

Lemma cancel_own_timer_schedule self s :
  schedule (cancel_own_timer self s) = schedule s.
Proof. unfold cancel_own_timer. destruct (timer self); [apply timer_cancel_schedule|done]. Qed.

Lemma shapes_insert_same s i self self' :
  invocations s !! i = Some self →
  shape_of self' = shape_of self →
  shape_of <$> <[i := self']> (invocations s) = shapes s.
Proof.
  intros Hself Hshape. rewrite list_fmap_insert. apply list_insert_id.
  unfold shapes. by rewrite list_lookup_fmap, Hself, Hshape.
Qed.

Lemma Invocation_set_exception_registry i e s :
  same_registry s (Invocation_set_exception i e s).
Proof.
  destruct (Invocation_set_exception_frame i e s) as (Hp & Hl & _ & Ha).
  split_and!; try done.
  - destruct (invocations s !! i) as [self|] eqn:Hself.
    + unfold shapes at 1. rewrite (Invocation_set_exception_heap i e s self Hself).
      by apply (shapes_insert_same s i self).
    + unfold Invocation_set_exception. by rewrite Hself.
  - unfold Invocation_set_exception. destruct (invocations s !! i) as [self|]; [|done].
    destruct (set_exception (future self) e) as [f t]. state_simpl.
    apply cancel_own_timer_counter.
  - unfold Invocation_set_exception. destruct (invocations s !! i) as [self|]; [|done].
    destruct (set_exception (future self) e) as [f t]. unfold schedule. state_simpl.
    apply cancel_own_timer_schedule.
Qed.

Lemma Invocation_set_response_registry i m s :
  same_registry s (Invocation_set_response i m s).
Proof.
  destruct (Invocation_set_response_frame i m s) as (Hp & Hl & _ & Ha).
  split_and!; try done.
  - unfold Invocation_set_response.
    destruct (invocations s !! i) as [self|] eqn:Hself; [|done].
    destruct (set_result (future self) (PyMessage m)) as [f t]. unfold shapes at 1.
    state_simpl. destruct (cancel_own_timer_frame self s) as (-> & _).
    by apply (shapes_insert_same s i self).
  - unfold Invocation_set_response. destruct (invocations s !! i) as [self|]; [|done].
    destruct (set_result (future self) (PyMessage m)) as [f t]. state_simpl.
    apply cancel_own_timer_counter.
  - unfold Invocation_set_response. destruct (invocations s !! i) as [self|]; [|done].
    destruct (set_result (future self) (PyMessage m)) as [f t]. unfold schedule. state_simpl.
    apply cancel_own_timer_schedule.
Qed.

Lemma handle_event_registry i m s : same_registry s (handle_event i m s).
Proof.
  unfold handle_event. destruct (invocations s !! i) as [self|]; [|done].
  destruct (event_handler self) as [handler|]; [|done].
  by destruct (handler m).
Qed.

Lemma try_retry_registry client i s :
  shapes (try_retry client i s).2 = shapes s ∧
  _pending (try_retry client i s).2 = _pending s ∧
  _listeners (try_retry client i s).2 = _listeners s ∧
  _next_correlation_id (try_retry client i s).2 = _next_correlation_id s ∧
  (schedule (try_retry client i s).2 = schedule s ∨
   schedule (try_retry client i s).2 =
     schedule s ++ [(AfterDelay RETRY_WAIT_TIME_IN_SECONDS, Reinvoke i)] ∧
   ∃ x, shapes s !! i = Some x ∧ bound x = None).
Proof.
  unfold try_retry. destruct (invocations s !! i) as [self|] eqn:Hself;
    [|split_and!; auto].
  destruct (connection self) eqn:Hconn; [split_and!; auto|].
  cbn [read_clock fst snd]. destruct (_ <? _); [split_and!; auto|].
  split_and!; try done. right. split.
  - unfold schedule. state_simpl. by rewrite fmap_app.
  - exists (shape_of self). split; [|done].
    unfold shapes. by rewrite list_lookup_fmap, Hself.
Qed.

Lemma well_formed_try_retry client i s :
  well_formed s → well_formed (try_retry client i s).2.
Proof.
  intros Hwf. destruct (try_retry_registry client i s) as (H1 & H2 & H3 & H4 & H5).
  unfold well_formed. rewrite H1, H2, H3, H4.
  destruct H5 as [->|[-> (x & Hx & Hbound)]]; [done|].
  by apply (consistent_reinvoke _ _ _ _ _ Hwf i x).
Qed.

Lemma well_formed_logger r s : well_formed s → well_formed (logger r s).
Proof. done. Qed.

Lemma well_formed_handle_exception client i error s :
  well_formed s → well_formed (handle_exception client i error s).
Proof.
  intros Hwf. destruct (invocations s !! i) as [self|] eqn:Hself;
    [|by unfold handle_exception; rewrite Hself].
  rewrite (handle_exception_unfold _ _ _ _ _ Hself). cbv zeta.
  set (s0 := logger _ s).
  set (first := if is_transport_error error then _ else _).
  assert (Hfirst : well_formed first.2).
  { subst first. destruct (is_transport_error error); [|done].
    by apply well_formed_try_retry. }
  destruct first.1; [done|].
  set (second := if is_retryable_error client error then _ else _).
  assert (Hsecond : well_formed second.2).
  { subst second. destruct (is_retryable_error client error); [|done].
    destruct (_ || _); [|done]. by apply well_formed_try_retry. }
  destruct second.1; [done|].
  apply (well_formed_same_registry second.2); [|done].
  apply Invocation_set_exception_registry.
Qed.

Lemma shape_of_sent s self m :
  shape_of (with_timer (with_request self m) (armed s self)) =
  sent_shape (schedule s) (shape_of self).
Proof.
  unfold shape_of, sent_shape, armed, schedule, has_event_handler.
  cbn [with_timer with_request connection event_handler timer timeout
       bound listens armed_with deadline].
  by rewrite length_fmap.
Qed.

Lemma _send_registry i conn s self :
  invocations s !! i = Some self →
  shapes (_send connection_send_message i conn s) =
    <[i := sent_shape (schedule s) (shape_of self)]> (shapes s) ∧
  _pending (_send connection_send_message i conn s) =
    <[_next_correlation_id s + 1 := i]> (_pending s) ∧
  _listeners (_send connection_send_message i conn s) =
    (if listens (shape_of self)
     then <[_next_correlation_id s + 1 := i]> (_listeners s) else _listeners s) ∧
  _next_correlation_id (_send connection_send_message i conn s) =
    _next_correlation_id s + 1 ∧
  schedule (_send connection_send_message i conn s) =
    schedule s ++ deadline_timer i (shape_of self).
Proof.
  intros Hself.
  destruct (_send_register_spec i conn s self Hself)
    as (s1 & Hreg & _ & Hp & Hl & Ht & Hh & Hn).
  unfold _send. rewrite Hreg. unfold shapes, schedule. state_simpl.
  rewrite Hp, Hl, Ht, Hh, Hn. split_and!; try done.
  - by rewrite list_fmap_insert, shape_of_sent.
  - unfold deadline_timer. cbn [shape_of armed_with deadline].
    destruct (timer self); [by rewrite app_nil_r|by rewrite fmap_app].
Qed.

Lemma well_formed_send i conn s :
  well_formed s → well_formed (_send connection_send_message i conn s).
Proof.
  intros Hwf. destruct (invocations s !! i) as [self|] eqn:Hself.
  - destruct (_send_registry i conn s self Hself) as (H1 & H2 & H3 & H4 & H5).
    unfold well_formed. rewrite H1, H2, H3, H4, H5.
    apply (consistent_send _ _ _ _ _ Hwf).
    unfold shapes. by rewrite list_lookup_fmap, Hself.
  - unfold _send, _send_register. by rewrite Hself.
Qed.

Lemma well_formed_invoke client i s : well_formed s → well_formed (_invoke client i s).
Proof.
  intros Hwf. unfold _invoke, _send_to_address.
  destruct (invocations s !! i) as [self|]; [|done].
  destruct (has_connection self).
  { destruct (connection self); [by apply well_formed_send|done]. }
  destruct (has_partition_id self); [by apply well_formed_send|].
  destruct (has_address self).
  { destruct (address self); [by apply well_formed_send|done]. }
  cbn [load_balancer_next_address]. by apply well_formed_send.
Qed.

Lemma well_formed_new_Invocation client m pid addr conn handler t s :
  well_formed s →
  well_formed (new_Invocation client m pid addr conn handler t s).2.
Proof.
  intros Hwf. unfold new_Invocation, well_formed, shapes, schedule.
  cbn [read_clock]. state_simpl. rewrite fmap_app.
  by apply consistent_new_shape.
Qed.

Lemma well_formed_handle_client_message client message s :
  well_formed s → well_formed (handle_client_message client message s).
Proof.
  intros Hwf. unfold handle_client_message.
  destruct (listener_flag message).
  - change (_listeners (logger _ s)) with (_listeners s).
    destruct (_listeners s !! correlation_id message) as [i|]; [|done].
    apply (well_formed_same_registry (logger (LogReceived message) s)); [|done].
    apply handle_event_registry.
  - change (_pending (logger _ s)) with (_pending s).
    destruct (_pending s !! correlation_id message) as [i|]; [|done].
    set (s1 := set_pending _ _).
    assert (Hwf1 : well_formed s1) by (by apply consistent_delete_pending).
    destruct (_ =? _).
    + by apply well_formed_handle_exception.
    + apply (well_formed_same_registry s1); [|done].
      apply Invocation_set_response_registry.
Qed.

Lemma first_loop_registry conn entries : ∀ s,
  same_registry s (foldl (fail_if_bound conn) s entries).
Proof.
  induction entries as [|e rest IH]; intros s; [done|]. cbn [foldl].
  apply (same_registry_trans _ (fail_if_bound conn s e)); [|apply IH].
  unfold fail_if_bound. destruct (bound_to s conn e.2); [|done].
  apply Invocation_set_exception_registry.
Qed.

Lemma second_loop_registry conn entries : ∀ s,
  shapes (foldl (pop_if_bound conn) s entries) = shapes s ∧
  _next_correlation_id (foldl (pop_if_bound conn) s entries) = _next_correlation_id s ∧
  schedule (foldl (pop_if_bound conn) s entries) = schedule s ∧
  ∀ cid i, _listeners (foldl (pop_if_bound conn) s entries) !! cid = Some i →
           _listeners s !! cid = Some i.
Proof.
  induction entries as [|e rest IH]; intros s; [done|]. cbn [foldl].
  destruct (IH (pop_if_bound conn s e)) as (-> & -> & -> & Hsub).
  assert (Hstep : shapes (pop_if_bound conn s e) = shapes s ∧
            _next_correlation_id (pop_if_bound conn s e) = _next_correlation_id s ∧
            schedule (pop_if_bound conn s e) = schedule s ∧
            ∀ cid i, _listeners (pop_if_bound conn s e) !! cid = Some i →
                     _listeners s !! cid = Some i).
  { unfold pop_if_bound. destruct (bound_to s conn e.2); [|done].
    split_and!; try done. intros cid i Hcid.
    cbn [_listeners set_listeners] in Hcid.
    by apply lookup_delete_Some in Hcid as [_ ?]. }
  destruct Hstep as (-> & -> & -> & Hsub1). split_and!; try done.
  intros cid i Hcid. by apply Hsub1, Hsub.
Qed.

Lemma well_formed_connection_closed conn s :
  well_formed s → well_formed (connection_closed conn s).
Proof.
  intros Hwf. unfold connection_closed.
  set (mid := foldl (fail_if_bound conn) s (map_to_list (_pending s))).
  assert (Hmid : well_formed mid).
  { apply (well_formed_same_registry s); [|done]. apply first_loop_registry. }
  destruct (second_loop_registry conn (map_to_list (_listeners mid)) mid)
    as (H1 & H2 & H3 & Hsub).
  destruct (second_loop_frame conn (map_to_list (_listeners mid)) mid) as (_ & H4 & _).
  unfold well_formed. rewrite H1, H2, H3, H4.
  by apply (consistent_fewer_listeners _ _ _ _ _ Hmid).
Qed.

Lemma well_formed_step client s s' :
  step client s s' → well_formed s → well_formed s'.
Proof.
  intros Hstep Hwf. destruct Hstep.
  - unfold invoke_on_connection.
    pose proof (well_formed_new_Invocation client message (-1) None (Some conn) handler
                  INVOCATION_TIMEOUT s Hwf) as Hnew.
    destruct (new_Invocation _ _ _ _ _ _ _ _) as [i s1]. by apply well_formed_invoke.
  - unfold invoke_on_partition.
    pose proof (well_formed_new_Invocation client message partition None None handler
                  INVOCATION_TIMEOUT s Hwf) as Hnew.
    destruct (new_Invocation _ _ _ _ _ _ _ _) as [i s1]. by apply well_formed_invoke.
  - unfold invoke_on_random_target.
    pose proof (well_formed_new_Invocation client message (-1) None None handler
                  INVOCATION_TIMEOUT s Hwf) as Hnew.
    destruct (new_Invocation _ _ _ _ _ _ _ _) as [i s1]. by apply well_formed_invoke.
  - unfold invoke_on_target.
    pose proof (well_formed_new_Invocation client message (-1) (Some addr) None handler
                  INVOCATION_TIMEOUT s Hwf) as Hnew.
    destruct (new_Invocation _ _ _ _ _ _ _ _) as [i s1]. by apply well_formed_invoke.
  - by apply well_formed_handle_client_message.
  - by apply well_formed_connection_closed.
  - destruct (action t) as [i|i]; cbn [run_timer_action].
    + apply (well_formed_same_registry s); [|done].
      apply Invocation_set_exception_registry.
    + by apply well_formed_invoke.
Qed.

Lemma reachable_well_formed client s : reachable client s → well_formed s.
Proof.
  unfold reachable. intros Hrun.
  refine (rtc_ind_r (R := step client) well_formed new_InvocationService _ _ s Hrun).
  - apply consistent_initial.
  - intros s1 s2 _ Hstep Hwf. by apply (well_formed_step client s1).
Qed.

(** * Further properties of the invocation service *)

Lemma shapes_lookup s i x :
  shapes s !! i = Some x ↔ ∃ self, invocations s !! i = Some self ∧ x = shape_of self.
Proof.
  unfold shapes. rewrite list_lookup_fmap. destruct (invocations s !! i) as [self|].
  - split; [intros [= <-]; eauto|]. by intros (self' & [= <-] & ->).
  - split; [done|]. by intros (? & ? & _).
Qed.

Lemma schedule_lookup s h d a :
  schedule s !! h = Some (d, a) ↔
  ∃ t, timers s !! h = Some t ∧ due t = d ∧ action t = a.
Proof.
  unfold schedule. rewrite list_lookup_fmap. destruct (timers s !! h) as [t|].
  - split.
    + intros [= <- <-]. eauto.
    + by intros (t' & [= <-] & <- & <-).
  - split; [done|]. by intros (? & ? & _).
Qed.

Lemma _invoke_send client i s self :
  invocations s !! i = Some self →
  ∃ s0, _invoke client i s =
          _send connection_send_message i (routing_target client s self) s0 ∧
        (s0 = s ∨ s0 = (load_balancer_next_address client s).2).
Proof.
  intros Hself. unfold _invoke, routing_target, has_connection, has_partition_id,
    has_address, _send_to_address.
  rewrite Hself. destruct (connection self) as [conn|]; [by exists s; auto|].
  destruct (Z.leb_spec 0 (partition_id self)); case_decide; try lia;
    [by exists s; auto|].
  destruct (address self) as [addr|]; [by exists s; auto|].
  eexists. split; [done|]. by right.
Qed.

Lemma _invoke_tables client i s self :
  invocations s !! i = Some self →
  _pending (_invoke client i s) = <[next_id s := i]> (_pending s) ∧
  _listeners (_invoke client i s) =
    (if has_event_handler self then <[next_id s := i]> (_listeners s)
     else _listeners s) ∧
  _next_correlation_id (_invoke client i s) = next_id s.
Proof.
  intros Hself. destruct (_invoke_send client i s self Hself) as (s0 & -> & Hs0).
  assert (Hself0 : invocations s0 !! i = Some self) by (by destruct Hs0 as [->| ->]).
  destruct (_send_registry i (routing_target client s self) s0 self Hself0)
    as (_ & -> & -> & -> & _).
  unfold next_id. by destruct Hs0 as [->| ->].
Qed.

(** X4: in every state the service can reach, the registered correlation ids
    are at most the counter, so the id of the next send is in neither table
    and a send, first or retry, never replaces or removes an entry that is
    already registered. *)
Theorem correlation_ids_are_fresh (client : Client) (s : State) :
  reachable client s →
  (∀ cid, is_Some (_pending s !! cid) ∨ is_Some (_listeners s !! cid) →
          cid ≤ _next_correlation_id s) ∧
  _pending s !! next_id s = None ∧
  _listeners s !! next_id s = None ∧
  (∀ i cid j, _pending s !! cid = Some j →
              _pending (_invoke client i s) !! cid = Some j) ∧
  (∀ i cid j, _listeners s !! cid = Some j →
              _listeners (_invoke client i s) !! cid = Some j).
Proof.
  intros Hrun. destruct (reachable_well_formed client s Hrun) as (Hp & Hl & _).
  assert (Hbound : ∀ cid, is_Some (_pending s !! cid) ∨ is_Some (_listeners s !! cid) →
                          cid ≤ _next_correlation_id s).
  { intros cid [[j Hj]|[j Hj]]; [by apply (Hp cid j)|by apply (Hl cid j)]. }
  assert (Hfresh_p : _pending s !! next_id s = None).
  { destruct (_pending s !! next_id s) eqn:E; [|done].
    assert (next_id s ≤ _next_correlation_id s) by (apply Hbound; left; eauto).
    unfold next_id in *. lia. }
  assert (Hfresh_l : _listeners s !! next_id s = None).
  { destruct (_listeners s !! next_id s) eqn:E; [|done].
    assert (next_id s ≤ _next_correlation_id s) by (apply Hbound; right; eauto).
    unfold next_id in *. lia. }
  split_and!; try done.
  - intros i cid j Hj. destruct (invocations s !! i) as [self|] eqn:Hself.
    + destruct (_invoke_tables client i s self Hself) as (-> & _).
      rewrite lookup_insert_ne; [done|]. intros <-. congruence.
    + unfold _invoke. by rewrite Hself.
  - intros i cid j Hj. destruct (invocations s !! i) as [self|] eqn:Hself.
    + destruct (_invoke_tables client i s self Hself) as (_ & -> & _).
      destruct (has_event_handler self); [|done].
      rewrite lookup_insert_ne; [done|]. intros <-. congruence.
    + unfold _invoke. by rewrite Hself.
Qed.

(** The state reached by one call of invoke_on_partition is reachable. *)
Lemma on_partition_reachable : reachable Fixture.client Fixture.on_partition.
Proof.
  unfold reachable, Fixture.on_partition.
  apply rtc_once. apply step_invoke_on_partition.
Defined.

(** X4 at work: the pending entry of the first send survives a retry. *)
Lemma correlation_ids_are_fresh_witness :
  _pending (_invoke Fixture.client 0 Fixture.on_partition) !! 2 = Some 0%nat.
Proof.
  exact (proj1 (proj2 (proj2 (proj2
           (correlation_ids_are_fresh Fixture.client Fixture.on_partition
                                      on_partition_reachable))))
           0%nat 2 0%nat eq_refl).
Defined.

(** X5: in every state the service can reach, every entry of the listeners
    table refers to an invocation with an event handler, so an event message
    with a registered correlation id always reaches a handler: it is called
    once, and no Invocation object and neither table changes. *)
Theorem registered_listener_has_handler (client : Client) (s : State)
    (message : ClientMessage) (i : nat) :
  reachable client s →
  listener_flag message = true →
  _listeners s !! correlation_id message = Some i →
  let s' := handle_client_message client message s in
  (∃ self handler, invocations s !! i = Some self ∧
                   event_handler self = Some handler) ∧
  handler_calls i (effects s') = S (handler_calls i (effects s)) ∧
  invocations s' = invocations s ∧
  _pending s' = _pending s ∧
  _listeners s' = _listeners s.
Proof.
  intros Hrun Hflag Hknown s'.
  destruct (reachable_well_formed client s Hrun) as (_ & Hl & _).
  destruct (Hl _ _ Hknown) as [_ (x & Hx & Hlistens)].
  apply shapes_lookup in Hx as (self & Hself & ->).
  cbn [shape_of listens] in Hlistens. unfold has_event_handler in Hlistens.
  destruct (event_handler self) as [handler|] eqn:Hhandler; [|done].
  split; [by eauto|].
  split; [by apply (event_message_calls_once client s i self handler)|].
  subst s'.
  by rewrite (event_message_unfold client s i self handler message
                Hflag Hknown Hself Hhandler).
Qed.

(** The states used as examples are reachable. *)
Lemma two_on_connection_reachable :
  reachable Fixture.client Fixture.two_on_connection.
Proof.
  unfold reachable, Fixture.two_on_connection. cbv zeta.
  eapply rtc_r; [|apply step_invoke_on_connection].
  apply rtc_once. apply step_invoke_on_connection.
Defined.

Lemma acknowledged_reachable : reachable Fixture.client Fixture.acknowledged.
Proof.
  unfold reachable, Fixture.acknowledged.
  eapply rtc_r; [exact two_on_connection_reachable|].
  apply step_handle_client_message.
Defined.

(** X5 at work: an event for the acknowledged listener. *)
Lemma registered_listener_has_handler_witness :
  handler_calls 1 (effects (handle_client_message Fixture.client (Fixture.event_msg 3)
                                                  Fixture.acknowledged)) =
  S (handler_calls 1 (effects Fixture.acknowledged)).
Proof.
  exact (proj1 (proj2
           (registered_listener_has_handler Fixture.client Fixture.acknowledged
              (Fixture.event_msg 3) 1 acknowledged_reachable eq_refl eq_refl))).
Defined.

(** X6: in every state the service can reach, a deadline timer of an
    invocation is the timer that invocation holds and is due at the
    invocation's absolute deadline; so an invocation has at most one deadline
    timer, however often it is sent. *)
Theorem one_deadline_timer (client : Client) (s : State) (h : nat) (t : Timer)
    (i : nat) :
  reachable client s →
  timers s !! h = Some t →
  action t = OnTimeout i →
  (∃ self, invocations s !! i = Some self ∧
           timer self = Some h ∧
           due t = AtTime (timeout self)) ∧
  (∀ h' t', timers s !! h' = Some t' → action t' = OnTimeout i → h' = h).
Proof.
  intros Hrun Ht Haction.
  destruct (reachable_well_formed client s Hrun) as (_ & _ & Hd & _ & _).
  assert (Hown : ∀ h0 t0, timers s !! h0 = Some t0 → action t0 = OnTimeout i →
            ∃ self, invocations s !! i = Some self ∧ timer self = Some h0 ∧
                    due t0 = AtTime (timeout self)).
  { intros h0 t0 Ht0 Ha0.
    destruct (Hd h0 (due t0) i) as (x & Hx & Harmed & Hdue).
    { apply schedule_lookup. eauto. }
    apply shapes_lookup in Hx as (self & Hself & ->). eauto. }
  split; [by apply Hown|].
  intros h' t' Ht' Ha'.
  destruct (Hown h t Ht Haction) as (self & Hself & Htimer & _).
  destruct (Hown h' t' Ht' Ha') as (self' & Hself' & Htimer' & _).
  congruence.
Qed.

(** X6 at work: the deadline timer of the partition-routed invocation. *)
Lemma one_deadline_timer_witness :
  ∃ self, invocations Fixture.on_partition !! 0%nat = Some self ∧
          timer self = Some 0%nat ∧
          AtTime 1120 = AtTime (timeout self).
Proof.
  exact (proj1 (one_deadline_timer Fixture.client Fixture.on_partition 0
                  (mkTimer (AtTime 1120) (OnTimeout 0) false) 0
                  on_partition_reachable eq_refl eq_refl)).
Defined.

(** X7: in every state the service can reach, a timer that re-runs the
    routing of an invocation belongs to an invocation without bound
    connection: an invocation bound to a connection is never rescheduled. *)
Theorem bound_invocation_never_rescheduled (client : Client) (s : State) (h : nat)
    (t : Timer) (i : nat) :
  reachable client s →
  timers s !! h = Some t →
  action t = Reinvoke i →
  ∃ self, invocations s !! i = Some self ∧ connection self = None.
Proof.
  intros Hrun Ht Haction.
  destruct (reachable_well_formed client s Hrun) as (_ & _ & _ & Hr & _).
  destruct (Hr h (due t) i) as (x & Hx & Hbound).
  { apply schedule_lookup. eauto. }
  apply shapes_lookup in Hx as (self & Hself & ->). eauto.
Qed.

(** The scenario states are reachable. *)
Lemma sent_retryable_reachable : reachable Fixture.client Scenario.sent_retryable.
Proof.
  unfold reachable, Scenario.sent_retryable.
  apply rtc_once. apply step_invoke_on_partition.
Defined.

Lemma rescheduled_reachable : reachable Fixture.client Scenario.rescheduled.
Proof.
  unfold reachable, Scenario.rescheduled.
  eapply rtc_r; [exact sent_retryable_reachable|].
  apply step_handle_client_message.
Defined.

(** X7 at work: the retry timer of the partition-routed invocation. *)
Lemma bound_invocation_never_rescheduled_witness :
  ∃ self, invocations Scenario.rescheduled !! 0%nat = Some self ∧
          connection self = None.
Proof.
  refine (bound_invocation_never_rescheduled Fixture.client Scenario.rescheduled 1
            (mkTimer (AfterDelay 1) (Reinvoke 0) false) 0
            rescheduled_reachable _ _); reflexivity.
Defined.

(** ** Resolution and the deadline timer *)

Lemma cancel_own_timer_cancels self s h t :
  timer self = Some h → timers s !! h = Some t →
  timers (cancel_own_timer self s) !! h = Some (cancel t).
Proof.
  intros Htimer Ht. unfold cancel_own_timer, timer_cancel. rewrite Htimer, Ht.
  cbn [timers set_timers]. apply list_lookup_insert_eq. by eapply lookup_lt_Some.
Qed.

Lemma Invocation_set_response_timers i m s self :
  invocations s !! i = Some self →
  timers (Invocation_set_response i m s) = timers (cancel_own_timer self s).
Proof.
  intros Hself. unfold Invocation_set_response. rewrite Hself.
  by destruct (set_result (future self) (PyMessage m)).
Qed.

Lemma Invocation_set_exception_timers i e s self :
  invocations s !! i = Some self →
  timers (Invocation_set_exception i e s) = timers (cancel_own_timer self s).
Proof.
  intros Hself. unfold Invocation_set_exception. rewrite Hself.
  by destruct (set_exception (future self) e).
Qed.

(** In a consistent state, cancelling the timer an invocation holds cancels
    every deadline timer of that invocation. *)
Lemma own_timer_is_the_deadline_timer s i self :
  well_formed s →
  invocations s !! i = Some self →
  ∀ h t, timers (cancel_own_timer self s) !! h = Some t →
         action t = OnTimeout i → cancelled t = true.
Proof.
  intros (_ & _ & Hd & _ & _) Hself h t Ht Haction.
  assert (Hsched : schedule s !! h = Some (due t, OnTimeout i)).
  { rewrite <- (cancel_own_timer_schedule self s). apply schedule_lookup. eauto. }
  destruct (Hd h _ i Hsched) as (x & Hx & Harmed & _).
  apply shapes_lookup in Hx as (self' & Hself' & ->).
  assert (self' = self) as -> by congruence. cbn [shape_of armed_with] in Harmed.
  apply schedule_lookup in Hsched as (t0 & Ht0 & _).
  rewrite (cancel_own_timer_cancels self s h t0 Harmed Ht0) in Ht.
  by injection Ht as <-.
Qed.

(** X8: in every state the service can reach, the two resolvers of an
    Invocation cancel its deadline timer: after set_response or
    set_exception, and so after a normal response was delivered for the
    invocation or its timeout fired, every deadline timer of that invocation
    is cancelled. *)
Theorem resolution_cancels_deadline_timer (client : Client) (s : State) (i : nat)
    (self : Invocation) :
  reachable client s →
  invocations s !! i = Some self →
  let cancelled_in (s' : State) :=
    ∀ h t, timers s' !! h = Some t → action t = OnTimeout i → cancelled t = true in
  (∀ m, cancelled_in (Invocation_set_response i m s)) ∧
  (∀ e, cancelled_in (Invocation_set_exception i e s)) ∧
  cancelled_in (on_timeout i s) ∧
  (∀ message,
     listener_flag message = false →
     _pending s !! correlation_id message = Some i →
     message_type message ≠ EXCEPTION_MESSAGE_TYPE client →
     cancelled_in (handle_client_message client message s)).
Proof.
  intros Hrun Hself cancelled_in. subst cancelled_in. cbv beta.
  pose proof (reachable_well_formed client s Hrun) as Hwf.
  assert (Hresponse : ∀ m s0, well_formed s0 → invocations s0 !! i = Some self →
            ∀ h t, timers (Invocation_set_response i m s0) !! h = Some t →
                   action t = OnTimeout i → cancelled t = true).
  { intros m s0 Hwf0 Hself0 h t. rewrite (Invocation_set_response_timers i m s0 self Hself0).
    by apply own_timer_is_the_deadline_timer. }
  assert (Hexception : ∀ e h t, timers (Invocation_set_exception i e s) !! h = Some t →
                                action t = OnTimeout i → cancelled t = true).
  { intros e h t. rewrite (Invocation_set_exception_timers i e s self Hself).
    by apply own_timer_is_the_deadline_timer. }
  split_and!.
  - intros m. by apply Hresponse.
  - done.
  - apply Hexception.
  - intros message Hflag Hknown Htype. unfold handle_client_message.
    rewrite Hflag. change (_pending (logger _ s)) with (_pending s). rewrite Hknown.
    apply Z.eqb_neq in Htype. rewrite Htype.
    apply Hresponse; [|done]. by apply consistent_delete_pending.
Qed.

(** X8 at work: the response for the partition-routed invocation. *)
Lemma resolution_cancels_deadline_timer_witness :
  let s' := handle_client_message Fixture.client (Fixture.response_msg 2)
                                  Fixture.on_partition in
  timers s' !! 0%nat = Some (mkTimer (AtTime 1120) (OnTimeout 0) true) ∧
  cancelled (mkTimer (AtTime 1120) (OnTimeout 0) true) = true.
Proof.
  split; [reflexivity|].
  refine (proj2 (proj2 (proj2
            (resolution_cancels_deadline_timer Fixture.client Fixture.on_partition 0 _
               on_partition_reachable _)))
            (Fixture.response_msg 2) _ _ _ 0%nat _ _ _).
  - reflexivity.
  - reflexivity.
  - reflexivity.
  - vm_compute. discriminate.
  - reflexivity.
  - reflexivity.
Defined.

(** ** Responses *)

Lemma Invocation_set_response_result i m s self :
  invocations s !! i = Some self →
  result_of (Invocation_set_response i m s) i =
  Some match _exception (future self) with
       | Some e => Raises e
       | None => Returns (PyMessage m)
       end.
Proof.
  intros Hself. unfold result_of, Invocation_set_response. rewrite Hself.
  destruct (set_result_fields (future self) (PyMessage m)) as (Hr & He & Hev).
  destruct (set_result (future self) (PyMessage m)) as [f t]. state_simpl.
  destruct (cancel_own_timer_frame self s) as (-> & _).
  rewrite list_lookup_insert_eq by (by eapply lookup_lt_Some).
  cbn [with_future future]. by rewrite (result_of_fields _ Hev), He, Hr.
Qed.

Lemma normal_response_unfold client message s i :
  listener_flag message = false →
  _pending s !! correlation_id message = Some i →
  message_type message ≠ EXCEPTION_MESSAGE_TYPE client →
  handle_client_message client message s =
  Invocation_set_response i message
    (set_pending (logger (LogReceived message) s)
                 (delete (correlation_id message) (_pending s))).
Proof.
  intros Hflag Hknown Htype. unfold handle_client_message.
  rewrite Hflag. change (_pending (logger _ s)) with (_pending s). rewrite Hknown.
  apply Z.eqb_neq in Htype. by rewrite Htype.
Qed.

Lemma _invoke_invocation client i s self :
  invocations s !! i = Some self →
  invocations (_invoke client i s) !! i =
  Some (with_timer (with_request self (stamped s self)) (armed s self)).
Proof.
  intros Hself. destruct (_invoke_send client i s self Hself) as (s0 & -> & Hs0).
  assert (Hself0 : invocations s0 !! i = Some self) by (by destruct Hs0 as [->| ->]).
  rewrite (_send_invocation i _ s0 self Hself0). by destruct Hs0 as [->| ->].
Qed.

(** X9: sending an invocation whose future holds no exception and then
    delivering a normal response that carries the correlation id of the
    message that was sent resolves that invocation's future with the
    response and removes exactly the entry of that send from the pending
    table; the message sent carries the invocation's partition id. *)
Theorem send_then_response (client : Client) (s : State) (i : nat)
    (self : Invocation) (response : ClientMessage) :
  invocations s !! i = Some self →
  _exception (future self) = None →
  listener_flag response = false →
  message_type response ≠ EXCEPTION_MESSAGE_TYPE client →
  correlation_id response = correlation_id (stamped s self) →
  let s1 := _invoke client i s in
  let s2 := handle_client_message client response s1 in
  sent s1 = sent s ++ [(routing_target client s self, stamped s self)] ∧
  msg_partition_id (stamped s self) = partition_id self ∧
  _pending s1 !! correlation_id response = Some i ∧
  result_of s2 i = Some (Returns (PyMessage response)) ∧
  _pending s2 = delete (correlation_id response) (_pending s).
Proof.
  intros Hself Hexc Hflag Htype Hcid s1 s2.
  change (correlation_id (stamped s self)) with (next_id s) in Hcid.
  destruct (_invoke_tables client i s self Hself) as (Hp1 & _).
  assert (Hknown : _pending s1 !! correlation_id response = Some i).
  { subst s1. rewrite Hp1, Hcid. apply lookup_insert_eq. }
  pose proof (_invoke_invocation client i s self Hself) as Hself1. fold s1 in Hself1.
  split_and!; try done.
  - subst s1. destruct (_invoke_send client i s self Hself) as (s0 & -> & Hs0).
    assert (Hself0 : invocations s0 !! i = Some self) by (by destruct Hs0 as [->| ->]).
    rewrite (_send_sent i _ s0 self Hself0). by destruct Hs0 as [->| ->].
  - subst s2. rewrite (normal_response_unfold client response s1 i Hflag Hknown Htype).
    erewrite Invocation_set_response_result; [|exact Hself1].
    cbn [with_timer with_request future]. by rewrite Hexc.
  - subst s2. rewrite (response_pops client response s1 i Hflag Hknown).
    subst s1. rewrite Hp1, Hcid. apply delete_insert_eq.
Qed.

(** X9 at work: the invocation carrying every kind of target, sent and
    answered. *)
Lemma send_then_response_witness :
  result_of (handle_client_message Fixture.client (Fixture.response_msg 2)
               (_invoke Fixture.client 0 Fixture.all_targets)) 0
  = Some (Returns (PyMessage (Fixture.response_msg 2))).
Proof.
  refine (proj1 (proj2 (proj2 (proj2
            (send_then_response Fixture.client Fixture.all_targets 0 _
               (Fixture.response_msg 2) _ _ _ _ _))))).
  - reflexivity.
  - reflexivity.
  - reflexivity.
  - vm_compute. discriminate.
  - reflexivity.
Defined.

Lemma result_of_raises s i e :
  result_of s i = Some (Raises e) →
  ∃ self, invocations s !! i = Some self ∧ _exception (future self) = Some e.
Proof.
  unfold result_of, result. destruct (invocations s !! i) as [self|]; [|done].
  destruct (_event (future self)); [|done].
  destruct (_exception (future self)) as [e'|] eqn:Hexc; [|done].
  intros [= <-]. by exists self.
Qed.

(** X10: a normal response for an invocation whose future already raises an
    error (its timeout fired, or its connection was closed) is still
    accepted: the entry is removed from the pending table, but result()
    keeps raising the earlier error; in particular a response that arrives
    after on_timeout does not replace the timeout error. *)
Theorem late_response_keeps_error (client : Client) (s : State) (i : nat)
    (response : ClientMessage) (e : exn) :
  listener_flag response = false →
  _pending s !! correlation_id response = Some i →
  message_type response ≠ EXCEPTION_MESSAGE_TYPE client →
  (result_of s i = Some (Raises e) →
   result_of (handle_client_message client response s) i = Some (Raises e) ∧
   _pending (handle_client_message client response s) =
     delete (correlation_id response) (_pending s)) ∧
  (is_Some (invocations s !! i) →
   result_of (handle_client_message client response (on_timeout i s)) i =
     Some (Raises (TimeoutError "Request timed out after 120 seconds."))).
Proof.
  intros Hflag Hknown Htype.
  assert (Hlate : ∀ s0 e0, _pending s0 !! correlation_id response = Some i →
            result_of s0 i = Some (Raises e0) →
            result_of (handle_client_message client response s0) i = Some (Raises e0)).
  { intros s0 e0 Hknown0 Hraises.
    destruct (result_of_raises s0 i e0 Hraises) as (self & Hself & Hexc).
    rewrite (normal_response_unfold client response s0 i Hflag Hknown0 Htype).
    erewrite Invocation_set_response_result; [|exact Hself].
    by rewrite Hexc. }
  split.
  - intros Hraises. split; [by apply Hlate|]. by apply (response_pops client response s i).
  - intros [self Hself]. apply Hlate.
    + unfold on_timeout.
      by destruct (Invocation_set_exception_frame i
           (TimeoutError "Request timed out after 120 seconds.") s) as (-> & _).
    + unfold on_timeout.
      destruct (Invocation_set_exception_result i
                  (TimeoutError "Request timed out after 120 seconds.") s self Hself)
        as (self' & Hself' & _ & Hresult).
      unfold result_of. by rewrite Hself'.
Qed.

(** X10 at work: the timeout of the partition-routed invocation fires, then
    its response arrives. *)
Lemma late_response_keeps_error_witness :
  result_of (handle_client_message Fixture.client (Fixture.response_msg 2)
               (on_timeout 0 Fixture.on_partition)) 0
  = Some (Raises (TimeoutError "Request timed out after 120 seconds.")).
Proof.
  refine (proj2 (late_response_keeps_error Fixture.client Fixture.on_partition 0
                   (Fixture.response_msg 2) (IOError "unused") _ _ _) _).
  - reflexivity.
  - reflexivity.
  - vm_compute. discriminate.
  - eexists. reflexivity.
Defined.

(** ** Failures *)

(** X11: when the deadline timer of an invocation fires, on_timeout fails
    its future with the timeout error but removes nothing: both tables are
    as before, so the invocation stays registered under its correlation id,
    nothing is sent and no retry is scheduled. *)
Theorem timeout_fails_but_keeps_entry (s : State) (i : nat) (self : Invocation) :
  invocations s !! i = Some self →
  let s' := on_timeout i s in
  result_of s' i = Some (Raises (TimeoutError "Request timed out after 120 seconds.")) ∧
  _pending s' = _pending s ∧
  _listeners s' = _listeners s ∧
  sent s' = sent s ∧
  action <$> timers s' = action <$> timers s.
Proof.
  intros Hself s'. subst s'. unfold on_timeout.
  destruct (Invocation_set_exception_frame i
              (TimeoutError "Request timed out after 120 seconds.") s)
    as (-> & -> & -> & ->).
  split_and!; try done.
  destruct (Invocation_set_exception_result i
              (TimeoutError "Request timed out after 120 seconds.") s self Hself)
    as (self' & Hself' & _ & Hresult).
  unfold result_of. by rewrite Hself'.
Qed.

(** X11 at work: the timeout of the partition-routed invocation. *)
Lemma timeout_fails_but_keeps_entry_witness :
  _pending (on_timeout 0 Fixture.on_partition) = _pending Fixture.on_partition.
Proof.
  refine (proj1 (proj2 (timeout_fails_but_keeps_entry Fixture.on_partition 0 _ _))).
  reflexivity.
Defined.

Lemma timer_cancel_clock h s : clock_reads (timer_cancel h s) = clock_reads s.
Proof. unfold timer_cancel. by destruct (timers s !! h). Qed.

Lemma Invocation_set_exception_clock i e s :
  clock_reads (Invocation_set_exception i e s) = clock_reads s.
Proof.
  unfold Invocation_set_exception. destruct (invocations s !! i) as [self|]; [|done].
  destruct (set_exception (future self) e) as [f t]. state_simpl.
  unfold cancel_own_timer. destruct (timer self); [apply timer_cancel_clock|done].
Qed.

(** X12: an error that is neither a transport or instance-not-active failure
    nor retryable according to the error catalog is terminal at once,
    whatever the deadline, the binding, the request's retryable mark and the
    redo setting: the future raises that error, no retry is scheduled and the
    clock is not even read. *)
Theorem other_error_is_terminal (client : Client) (s : State) (i : nat)
    (self : Invocation) (error : exn) :
  invocations s !! i = Some self →
  is_transport_error error = false →
  is_retryable_error client error = false →
  let s' := handle_exception client i error s in
  failed_with i error s s' ∧
  clock_reads s' = clock_reads s ∧
  _pending s' = _pending s ∧
  _listeners s' = _listeners s.
Proof.
  intros Hself Htransport Hcatalog s'. subst s'.
  destruct (handle_exception_tables client i error s) as [-> ->].
  rewrite (handle_exception_unfold _ _ _ _ _ Hself). cbv zeta.
  rewrite Htransport, Hcatalog. cbn [fst snd].
  split_and!; try done.
  - by apply (set_exception_fails _ _ s _ self).
  - by rewrite Invocation_set_exception_clock.
Qed.

(** X12 at work: a remote error outside the catalog, well before the
    deadline of a retryable request. *)
Lemma other_error_is_terminal_witness :
  failed_with 0 (OtherError "IllegalStateException" "boom") Scenario.sent_retryable
    (handle_exception Fixture.client 0 (OtherError "IllegalStateException" "boom")
                      Scenario.sent_retryable).
Proof.
  refine (proj1 (other_error_is_terminal Fixture.client Scenario.sent_retryable 0 _
                   (OtherError "IllegalStateException" "boom") _ _ _));
    reflexivity.
Defined.

(** ** The entry points *)

Lemma _invoke_timers client i s self :
  invocations s !! i = Some self →
  timers (_invoke client i s) =
  match timer self with
  | None => timers s ++ [mkTimer (AtTime (timeout self)) (OnTimeout i) false]
  | Some _ => timers s
  end.
Proof.
  intros Hself. destruct (_invoke_send client i s self Hself) as (s0 & -> & Hs0).
  assert (Hself0 : invocations s0 !! i = Some self) by (by destruct Hs0 as [->| ->]).
  rewrite (_send_timers i _ s0 self Hself0). by destruct Hs0 as [->| ->].
Qed.

Lemma _invoke_sent client i s self :
  invocations s !! i = Some self →
  sent (_invoke client i s) = sent s ++ [(routing_target client s self, stamped s self)].
Proof.
  intros Hself. destruct (_invoke_send client i s self Hself) as (s0 & -> & Hs0).
  assert (Hself0 : invocations s0 !! i = Some self) by (by destruct Hs0 as [->| ->]).
  rewrite (_send_sent i _ s0 self Hself0). by destruct Hs0 as [->| ->].
Qed.

Lemma _invoke_others client i s j :
  j ≠ i → invocations (_invoke client i s) !! j = invocations s !! j.
Proof.
  intros Hne. destruct (invocations s !! i) as [self|] eqn:Hself.
  - destruct (_invoke_send client i s self Hself) as (s0 & -> & Hs0).
    assert (Hself0 : invocations s0 !! i = Some self) by (by destruct Hs0 as [->| ->]).
    destruct (_send_register_spec i (routing_target client s self) s0 self Hself0)
      as (s1 & Hreg & _ & _ & _ & _ & Hh & _).
    unfold _send. rewrite Hreg. state_simpl. rewrite Hh.
    rewrite list_lookup_insert_ne by done. by destruct Hs0 as [->| ->].
  - unfold _invoke. by rewrite Hself.
Qed.

Lemma _invoke_heap_length client i s :
  length (invocations (_invoke client i s)) = length (invocations s).
Proof.
  destruct (invocations s !! i) as [self|] eqn:Hself.
  - destruct (_invoke_send client i s self Hself) as (s0 & -> & Hs0).
    assert (Hself0 : invocations s0 !! i = Some self) by (by destruct Hs0 as [->| ->]).
    destruct (_send_register_spec i (routing_target client s self) s0 self Hself0)
      as (s1 & Hreg & _ & _ & _ & _ & Hh & _).
    unfold _send. rewrite Hreg. state_simpl. rewrite Hh, length_insert.
    by destruct Hs0 as [->| ->].
  - unfold _invoke. by rewrite Hself.
Qed.

(** Construction followed by [_invoke], as every entry point does it. *)
Lemma construct_and_invoke client m pid addr conn handler s :
  let self := mkInvocation (INVOCATION_TIMEOUT + time_time client (clock_reads s))
                           addr conn pid m handler new_Future None in
  let r := (let '(i, s1) := new_Invocation client m pid addr conn handler
                                           INVOCATION_TIMEOUT s in
            (i, _invoke client i s1)) in
  started client s handler r ∧
  sent r.2 = sent s ++ [(routing_target client s self, stamp s m pid)].
Proof.
  intros self r. subst r. unfold new_Invocation. cbn [read_clock invocations].
  fold self. set (s1 := set_invocations _ _). cbn [fst snd].
  assert (Hself : invocations s1 !! length (invocations s) = Some self).
  { subst s1. state_simpl. rewrite lookup_app_r by done. by rewrite Nat.sub_diag. }
  destruct (_invoke_tables client _ s1 self Hself) as (Hp & Hl & _).
  unfold started. cbn [fst snd]. split; [split_and!|].
  - done.
  - rewrite _invoke_heap_length. subst s1. state_simpl.
    rewrite length_app. cbn [length]. lia.
  - eexists. split; [exact (_invoke_invocation client _ s1 self Hself)|].
    split_and!; try done.
    by rewrite (_invoke_timers client _ s1 self Hself).
  - by rewrite Hp.
  - rewrite Hl. by destruct handler.
  - intros j old Hj. exists old. split; [|by destruct old].
    rewrite _invoke_others.
    + subst s1. state_simpl. by apply lookup_app_l_Some.
    + apply lookup_lt_Some in Hj. lia.
  - by rewrite (_invoke_sent client _ s1 self Hself).
Qed.

(** X13: every entry point creates exactly one new Invocation object, whose
    future is fresh and which holds the handler given, registers it under the
    next correlation id (also as a listener when a handler is given) and adds
    exactly one timer, the deadline timer of the new invocation, due at the
    deadline stored in it; of the objects that existed before, every field
    but the request is as it was. *)
Theorem entry_points_register (client : Client) (s : State) (message : ClientMessage)
    (handler : option EventHandler) (conn : Connection) (partition : Z)
    (addr : Address) :
  started client s handler (invoke_on_connection client message conn handler s) ∧
  started client s handler (invoke_on_partition client message partition handler s) ∧
  started client s handler (invoke_on_random_target client message handler s) ∧
  started client s handler (invoke_on_target client message addr handler s).
Proof.
  split_and!.
  - apply (construct_and_invoke client message (-1) None (Some conn) handler s).
  - apply (construct_and_invoke client message partition None None handler s).
  - apply (construct_and_invoke client message (-1) None None handler s).
  - apply (construct_and_invoke client message (-1) (Some addr) None handler s).
Qed.

(** X14: the message each entry point hands over and the connection that
    gets it: invoke_on_connection sends on the given connection,
    invoke_on_target on the connection to the given address,
    invoke_on_random_target on the connection to the load balancer's next
    address, and invoke_on_partition on the connection to the partition
    owner, unless the partition id is negative, in which case it falls
    through to the load balancer; the message carries the next correlation
    id and the partition id given, or -1. *)
Theorem entry_points_route (client : Client) (s : State) (message : ClientMessage)
    (handler : option EventHandler) (conn : Connection) (partition : Z)
    (addr : Address) :
  let balanced := get_or_connect client (next_address client (balancer_calls s)) in
  sent (invoke_on_connection client message conn handler s).2 =
    sent s ++ [(conn, stamp s message (-1))] ∧
  sent (invoke_on_partition client message partition handler s).2 =
    sent s ++ [(if decide (0 ≤ partition)
                then get_or_connect client (get_partition_owner client partition)
                else balanced,
                stamp s message partition)] ∧
  sent (invoke_on_random_target client message handler s).2 =
    sent s ++ [(balanced, stamp s message (-1))] ∧
  sent (invoke_on_target client message addr handler s).2 =
    sent s ++ [(get_or_connect client addr, stamp s message (-1))].
Proof.
  intros balanced. split_and!.
  - apply (construct_and_invoke client message (-1) None (Some conn) handler s).
  - destruct (construct_and_invoke client message partition None None handler s)
      as [_ Hsent].
    unfold invoke_on_partition. rewrite Hsent. unfold routing_target.
    cbn [connection partition_id address]. by case_decide.
  - apply (construct_and_invoke client message (-1) None None handler s).
  - apply (construct_and_invoke client message (-1) (Some addr) None handler s).
Qed.

(** ** Retries *)

(** X15: when the reactor runs the retry of an invocation that was sent
    before, the same Invocation object is sent again under a new correlation
    id: it is registered in the pending table under that id, its request is
    restamped, and its future, its deadline and its deadline timer are the
    ones it had; no timer is added. *)
Theorem retry_resends_same_invocation (client : Client) (s : State) (i h : nat)
    (self : Invocation) :
  invocations s !! i = Some self →
  timer self = Some h →
  let s' := run_timer_action client (Reinvoke i) s in
  _pending s' = <[next_id s := i]> (_pending s) ∧
  timers s' = timers s ∧
  invocations s' !! i = Some (with_request self (stamped s self)) ∧
  correlation_id (stamped s self) = next_id s ∧
  sent s' = sent s ++ [(routing_target client s self, stamped s self)].
Proof.
  intros Hself Htimer s'. subst s'. cbn [run_timer_action].
  destruct (_invoke_tables client i s self Hself) as (-> & _).
  rewrite (_invoke_timers client i s self Hself), Htimer.
  rewrite (_invoke_invocation client i s self Hself).
  rewrite (_invoke_sent client i s self Hself).
  split_and!; try done.
  unfold armed, with_timer, with_request. rewrite Htimer.
  by cbn [timeout address connection partition_id request event_handler future timer].
Qed.

(** X15 at work: the rescheduled invocation is sent again under id 3. *)
Lemma retry_resends_same_invocation_witness :
  _pending Scenario.resent = <[3 := 0%nat]> (_pending Scenario.rescheduled).
Proof.
  refine (proj1 (retry_resends_same_invocation Fixture.client Scenario.rescheduled
                   0 0 _ _ _)); reflexivity.
Defined.

(** ** Closing a connection twice *)

Lemma connection_closed_connections conn s :
  connection <$> invocations (connection_closed conn s) =
  connection <$> invocations s.
Proof. rewrite connection_closed_heap. apply first_loop_frame. Qed.

Lemma connection_closed_bound_to conn s i :
  bound_to (connection_closed conn s) conn i = bound_to s conn i.
Proof. apply bound_to_heap, connection_closed_connections. Qed.

Lemma connection_closed_untouched conn s i :
  (∀ cid, _pending s !! cid = Some i → bound_to s conn i = false) →
  invocations (connection_closed conn s) !! i = invocations s !! i.
Proof.
  intros Hother. rewrite connection_closed_heap.
  apply first_loop_other. intros cid Hin%elem_of_map_to_list. by apply (Hother cid).
Qed.

(** X16: connection_closed is idempotent on what it is about: calling it a
    second time for the same connection changes neither table and leaves the
    outcome of every invocation's future as the first call made it. *)
Theorem connection_closed_twice (conn : Connection) (s : State) :
  let once := connection_closed conn s in
  let twice := connection_closed conn once in
  _pending twice = _pending once ∧
  _listeners twice = _listeners once ∧
  ∀ i, result_of twice i = result_of once i.
Proof.
  intros once twice. split_and!.
  - apply connection_closed_pending.
  - apply map_eq. intros cid. subst twice.
    rewrite (connection_closed_listeners conn once cid).
    destruct (_listeners once !! cid) as [i|] eqn:Hcid; [|done].
    subst once. rewrite connection_closed_bound_to.
    rewrite connection_closed_listeners in Hcid.
    destruct (_listeners s !! cid) as [j|]; [|done].
    destruct (bound_to s conn j) eqn:Hbound; [done|].
    injection Hcid as <-. by rewrite Hbound.
  - intros i.
    assert (Hcases : (∃ cid, _pending s !! cid = Some i ∧ bound_to s conn i = true) ∨
                     (∀ cid, _pending s !! cid = Some i → bound_to s conn i = false)).
    { destruct (bound_to s conn i) eqn:Hbound; [|by right].
      destruct (decide (i ∈ (map_to_list (_pending s)).*2)) as [Hin|Hout].
      - left. apply list_elem_of_fmap in Hin as ([cid j] & -> & Hin).
        apply elem_of_map_to_list in Hin. by exists cid.
      - right. intros cid Hcid. destruct Hout.
        apply list_elem_of_fmap. exists (cid, i). split; [done|].
        by apply elem_of_map_to_list. }
    destruct Hcases as [(cid & Hcid & Hbound)|Hother].
    + pose proof (connection_closed_closes conn s cid i Hcid Hbound) as H1.
      assert (H2 : closed_at twice i).
      { apply (connection_closed_closes conn once cid i).
        - subst once. by rewrite connection_closed_pending.
        - subst once. by rewrite connection_closed_bound_to. }
      unfold closed_at in *. fold once in H1. congruence.
    + unfold result_of. subst twice. rewrite connection_closed_untouched; [done|].
      intros cid Hcid. subst once. rewrite connection_closed_bound_to.
      rewrite connection_closed_pending in Hcid. by apply (Hother cid).
Qed.

(** * The order of registration and hand-over in _send *)

Lemma answered_at_once client reply conn message s i self :
  _pending s !! correlation_id (reply message) = Some i →
  invocations s !! i = Some self →
  listener_flag (reply message) = false →
  message_type (reply message) ≠ EXCEPTION_MESSAGE_TYPE client →
  result_of (answering client reply conn message s) i =
    Some match _exception (future self) with
         | Some e => Raises e
         | None => Returns (PyMessage (reply message))
         end ∧
  _pending (answering client reply conn message s) =
    delete (correlation_id (reply message)) (_pending s).
Proof.
  intros Hknown Hself Hflag Htype. unfold answering.
  set (s' := connection_send_message conn message s).
  assert (Hknown' : _pending s' !! correlation_id (reply message) = Some i) by done.
  split.
  - rewrite (normal_response_unfold client (reply message) s' i Hflag Hknown' Htype).
    erewrite Invocation_set_response_result; [done|exact Hself].
  - by rewrite (response_pops client (reply message) s' i Hflag Hknown').
Qed.

(** C7: on every send attempt the invocation is put in the pending table,
    and in the listeners table too when it has an event handler, before the
    message is handed to the connection's send operation: whatever that
    operation does, it runs on a state that already holds the entries and to
    which no message has been handed yet, so that a response delivered while
    it runs finds the invocation and is not dropped; the deadline timer is
    armed only when the invocation holds no timer yet, so a second send of the
    same invocation arms nothing and the deadline stays the original one. *)
Theorem C7_registered_before_send (i : nat) (conn conn' : Connection) (s : State)
    (self : Invocation) :
  invocations s !! i = Some self →
  ∃ s1,
    _send_register i conn s = Some (stamped s self, s1) ∧
    (∀ send_message,
       _send send_message i conn s = send_message conn (stamped s self) s1) ∧
    sent s1 = sent s ∧
    sent (_send connection_send_message i conn s) = sent s ++ [(conn, stamped s self)] ∧
    _pending s1 !! next_id s = Some i ∧
    (has_event_handler self = true → _listeners s1 !! next_id s = Some i) ∧
    (has_event_handler self = false → _listeners s1 = _listeners s) ∧
    (timer self = None →
     timers s1 = timers s ++ [mkTimer (AtTime (timeout self)) (OnTimeout i) false]) ∧
    (timer self ≠ None → timers s1 = timers s) ∧
    (∃ self1, invocations s1 !! i = Some self1 ∧ is_Some (timer self1) ∧
              timeout self1 = timeout self) ∧
    timers (_send connection_send_message i conn'
                  (_send connection_send_message i conn s)) =
      timers (_send connection_send_message i conn s) ∧
    (timeout <$> invocations (_send connection_send_message i conn s) !! i) =
      Some (timeout self) ∧
    (∀ client reply,
       correlation_id (reply (stamped s self)) = next_id s →
       listener_flag (reply (stamped s self)) = false →
       message_type (reply (stamped s self)) ≠ EXCEPTION_MESSAGE_TYPE client →
       result_of (_send (answering client reply) i conn s) i =
         Some match _exception (future self) with
              | Some e => Raises e
              | None => Returns (PyMessage (reply (stamped s self)))
              end ∧
       _pending (_send (answering client reply) i conn s) =
         delete (next_id s) (_pending s)).
Proof.
  intros Hself.
  destruct (_send_register_spec i conn s self Hself)
    as (s1 & Hreg & Hsent & Hp & Hl & Ht & Hh & _).
  assert (Hvia : ∀ send_message,
            _send send_message i conn s = send_message conn (stamped s self) s1).
  { intros send_message. unfold _send. by rewrite Hreg. }
  assert (Hself1 : invocations s1 !! i =
            Some (with_timer (with_request self (stamped s self)) (armed s self))).
  { rewrite Hh. apply list_lookup_insert_eq. by eapply lookup_lt_Some. }
  exists s1. split_and!.
  - done.
  - done.
  - done.
  - by apply _send_sent.
  - rewrite Hp. apply lookup_insert_eq.
  - intros Hhandler. rewrite Hl, Hhandler. apply lookup_insert_eq.
  - intros Hhandler. by rewrite Hl, Hhandler.
  - intros Htimer. by rewrite Ht, Htimer.
  - intros Htimer. rewrite Ht. by destruct (timer self).
  - eexists. split; [exact Hself1|]. split; [|done].
    unfold armed. cbn [with_timer timer]. by destruct (timer self).
  - by apply (_send_twice_timers _ _ _ _ self).
  - by rewrite (_send_invocation i conn s self Hself).
  - intros client reply Hcid Hflag Htype. rewrite Hvia.
    destruct (answered_at_once client reply conn (stamped s self) s1 i _
                ltac:(rewrite Hcid, Hp; apply lookup_insert_eq) Hself1 Hflag Htype)
      as [Hresult Hpending].
    split; [exact Hresult|].
    rewrite Hpending, Hcid, Hp. apply delete_insert_eq.
Qed.

(** C7 at work: the first send of an invocation bound to connection 7, on a
    connection that has the response delivered before send_message returns. *)
Lemma C7_registered_before_send_witness :
  let reply := fun m : ClientMessage => Fixture.response_msg (correlation_id m) in
  let stamped_msg := mkMessage 2 3 false 1 false "map.get" in
  ∃ s1,
    _send (answering Fixture.client reply) 0 7%nat Fixture.all_targets =
      answering Fixture.client reply 7%nat stamped_msg s1 ∧
    sent s1 = [] ∧
    _pending s1 !! 2 = Some 0%nat ∧
    result_of (_send (answering Fixture.client reply) 0 7%nat Fixture.all_targets) 0
      = Some (Returns (PyMessage (Fixture.response_msg 2))).
Proof.
  intros reply stamped_msg.
  destruct (C7_registered_before_send 0 7%nat 7%nat Fixture.all_targets
              (mkInvocation 1120 (Some (mkAddress "explicit" 9)) (Some 7%nat) 3
                            Fixture.request_msg None new_Future None)
              eq_refl)
    as (s1 & _ & Hvia & Hsent & _ & Hpending & _ & _ & _ & _ & _ & _ & _ & Hrace).
  exists s1. split; [exact (Hvia (answering Fixture.client reply))|].
  split; [exact Hsent|]. split; [exact Hpending|].
  refine (proj1 (Hrace Fixture.client reply _ _ _)).
  - reflexivity.
  - reflexivity.
  - vm_compute. discriminate.
Defined.
